(** * cli_parser.h: a shallow embedding of [cli::Parser] and its properties

    The header defines one class, [cli::Parser], with the nested classes
    [Option] and [Option::Argument].  This file embeds the registry
    ([addOption], [operator()], [Option::value]), the scanner ([parse]) and
    the help composer ([splitWords], [composeHelpString]) as executable
    functions, and proves the properties the specification states about
    them.

    Conventions of the embedding
    - [std::string] is [string]; [std::endl] writes the newline character.
    - [std::map<std::string, T>] is [gmap string T].
    - [std::list<Option>] is [list Option]; an [Option*] into that list is
      the position of the element (the list only grows at its back, so a
      position names the same element for the life of the registry).
    - [argc]/[argv] is a [list string] whose length is [argc].
    - A statement with effects returns in [result]: [Ret] for normal
      completion, [Throw] for a raised [ParsingException], [Undefined]
      where C++ gives the statement no meaning (dereferencing a pointer
      that is not in the list, [front()] of an empty list) and [OutOfFuel]
      for a loop that was given too few iterations.
    - What is written to [std::cout] and [std::cerr], and every call of a
      validator, is recorded in order in a list of [Event]s.
    - A validator is a [std::function<bool(Option&)>].  [Option] shows the
      callback only [value], which reads the slot vector, so the callback is
      a function of the slots and of the state [Env] its closure captured,
      and returns its verdict with the new captured state.  A callback that
      assigns a new [Option] to its argument, or that reaches the registry
      through a captured reference, is outside the embedding.  So is a
      callback that throws: [parse] has no handler, the exception leaves it,
      and what is proved here of a call of [parse] is proved of calls in
      which every validator returns its verdict. *)

From stdpp Require Import gmap strings list.
From Stdlib Require Import ZArith Ascii.

Module cli.

(** ** Results of effectful code *)

Record ParsingException := { what : string }.

Inductive result (A : Type) : Type :=
| Ret (a : A)
| Throw (e : ParsingException)
| Undefined
| OutOfFuel.
Arguments Ret {A} a.
Arguments Throw {A} e.
Arguments Undefined {A}.
Arguments OutOfFuel {A}.

Global Instance result_ret : MRet result := λ A a, Ret a.
Global Instance result_bind : MBind result := λ A B k m,
  match m with
  | Ret a => k a
  | Throw e => Throw e
  | Undefined => Undefined
  | OutOfFuel => OutOfFuel
  end.

(** ** Strings *)

Definition endl : string := String (Ascii.ascii_of_nat 10) EmptyString.
Definition space : ascii := Ascii.ascii_of_nat 32.

(** [std::string(n, c)] *)
Fixpoint fill (n : nat) (c : ascii) : string :=
  match n with
  | 0 => EmptyString
  | S n' => String c (fill n' c)
  end.

(** [s.substr(0, n)] *)
Fixpoint substr_to (s : string) (n : nat) : string :=
  match n, s with
  | S n', String c s' => String c (substr_to s' n')
  | _, _ => EmptyString
  end.

(** [s.substr(n)], for [n <= s.size()] (every call site guarantees it) *)
Fixpoint substr_from (s : string) (n : nat) : string :=
  match n, s with
  | S n', String _ s' => substr_from s' n'
  | _, _ => s
  end.

(** [s.find_last_of(c)]; [None] is [std::string::npos] *)
Fixpoint find_last_of (s : string) (c : ascii) : option nat :=
  match s with
  | EmptyString => None
  | String a s' =>
      match find_last_of s' c with
      | Some k => Some (S k)
      | None => if decide (a = c) then Some 0 else None
      end
  end.

(** [ss << std::left << std::setw(w) << s] and the [std::right] form: the
    field is padded with spaces up to [w] and never truncated. *)
Definition setw_left (w : nat) (s : string) : string :=
  s +:+ fill (w - String.length s) space.
Definition setw_right (w : nat) (s : string) : string :=
  fill (w - String.length s) space +:+ s.

(** ** Parser::ParsingResult *)

Inductive ParsingResult :=
| PARSED_OK
| PARSED_HELP
| PARSED_FAILED
| PARSED_FAILED_VALIDATOR.

Definition ParsingResult_value (r : ParsingResult) : Z :=
  match r with
  | PARSED_OK => 0
  | PARSED_HELP => 1
  | PARSED_FAILED => -2
  | PARSED_FAILED_VALIDATOR => -3
  end.

Global Instance ParsingResult_eq_dec : EqDecision ParsingResult.
Proof. solve_decision. Defined.

(** ** Option::Argument and Option *)

Record Argument := mkArgument {
  mId : string;
  mDesc : string;
  mValue : string
}.

(** [Argument(id, desc)]: the value starts empty. *)
Definition Argument_new (id desc : string) : Argument :=
  {| mId := id; mDesc := desc; mValue := EmptyString |}.

(** [innerArg.mValue = subArg] *)
Definition set_mValue (a : Argument) (v : string) : Argument :=
  {| mId := mId a; mDesc := mDesc a; mValue := v |}.

(** ** Word wrapping: Parser::splitWords *)

(** The value the header gives the macro when the includer has not
    defined it. *)
Definition CLI_MAX_LINE_WIDTH : nat := 80.

(** The [while (copy.size() > width)] loop.  [ss] is the stream written so
    far.  One unit of [fuel] pays for one iteration. *)
Fixpoint splitWords_loop (fuel : nat) (width : nat) (padStr : string)
    (ss copy padStrInUse : string) : result string :=
  if width <? String.length copy then
    match fuel with
    | 0 => OutOfFuel
    | S fuel' =>
        let block := substr_to copy width in
        match find_last_of block space with
        | Some index =>
            splitWords_loop fuel' width padStr
              (ss +:+ padStrInUse +:+ substr_to block index +:+ endl)
              (substr_from copy (index + 1)) padStr
        | None =>
            splitWords_loop fuel' width padStr
              (ss +:+ padStrInUse +:+ block +:+ endl)
              (substr_from copy width) padStr
        end
    end
  else Ret (ss +:+ padStrInUse +:+ copy).

Definition splitWords (value : string) (width : nat) (padStr : string)
  : result string :=
  splitWords_loop (String.length value) width padStr
    EmptyString value EmptyString.

(** ** What a run writes and calls *)

Inductive Event :=
| Cout (text : string)
| Cerr (text : string)
| Validated (ref : nat) (args : list Argument) (verdict : bool).

Definition more_information : string :=
  " Please use --help for more information." +:+ endl.

Definition invalid_argument (arg : string) : string :=
  "Invalid argument {'" +:+ arg +:+ "'}." +:+ more_information.

Definition missing_argument (id arg : string) : string :=
  "Missing argument {'" +:+ id +:+ "'} for parameter '" +:+ arg +:+ "'."
  +:+ more_information.

Definition mandatory_not_provided (front : string) : string :=
  "Mandatory parameter {'" +:+ front +:+ "'} not provided."
  +:+ more_information.

(** [arg == "--help" || arg == "-h" || arg == "/?"] *)
Definition is_help (arg : string) : bool :=
  bool_decide (arg = "--help") || bool_decide (arg = "-h")
  || bool_decide (arg = "/?").

(** The loop over [opt->mArgsRef] inside [parse].  It returns the slots as
    the loop leaves them, the cursor, and the id of the slot for which no
    token was left, if the loop returned early. *)
Fixpoint fill_args (argv : list string) (i : nat) (args : list Argument)
  : list Argument * nat * option string :=
  match args with
  | [] => ([], i, None)
  | innerArg :: rest =>
      if length argv <=? i + 1 then (innerArg :: rest, i, Some (mId innerArg))
      else
        let '(rest', i', missing) := fill_args argv (S i) rest in
        (set_mValue innerArg (argv !!! S i) :: rest', i', missing)
  end.

Section WithEnv.

Variable Env : Type.

Definition Validator : Type := list Argument → Env → bool * Env.

Record Option := mkOption {
  mOpts : list string;
  mDescription : string;
  mMandatory : bool;
  mArgsRef : list Argument;
  mArgsMap : gmap string nat;
  mProvided : bool;
  mValidator : option Validator   (* [None] is [nullptr] *)
}.

(** The constructor's loop [mArgsMap.insert(std::make_pair(id, i))]:
    [std::map::insert] keeps an entry that is already there. *)
Fixpoint index_args (m : gmap string nat) (i : nat) (args : list Argument)
  : gmap string nat :=
  match args with
  | [] => m
  | a :: rest =>
      index_args (match m !! mId a with
                  | Some _ => m
                  | None => <[mId a := i]> m
                  end) (S i) rest
  end.

Definition Option_new (opts : list string) (description : string)
    (mandatory : bool) (args : list Argument) (validator : option Validator)
  : Option :=
  {| mOpts := opts;
     mDescription := description;
     mMandatory := mandatory;
     mArgsRef := args;
     mArgsMap := index_args ∅ 0 args;
     mProvided := false;
     mValidator := validator |}.

(** [Option::value] *)
Definition value (o : Option) (id : string) : result string :=
  match mArgsMap o !! id with
  | None => Throw {| what := "Invalid Argument" |}
  | Some k =>
      match mArgsRef o !! k with
      | Some a => Ret (mValue a)
      | None => Undefined
      end
  end.

(** [Option::checkMandatory] *)
Definition checkMandatory (o : Option) : bool :=
  negb (mMandatory o) || mProvided o.

Definition set_mArgsRef (o : Option) (args : list Argument) : Option :=
  {| mOpts := mOpts o; mDescription := mDescription o;
     mMandatory := mMandatory o; mArgsRef := args; mArgsMap := mArgsMap o;
     mProvided := mProvided o; mValidator := mValidator o |}.

Definition set_mProvided (o : Option) (b : bool) : Option :=
  {| mOpts := mOpts o; mDescription := mDescription o;
     mMandatory := mMandatory o; mArgsRef := mArgsRef o;
     mArgsMap := mArgsMap o; mProvided := b; mValidator := mValidator o |}.

(** ** Parser *)

Record Parser := mkParser {
  mProgram : string;
  mVersion : string;
  mParserDescription : string;      (* [Parser::mDescription] *)
  mOptionRefs : list Option;
  mOptionsMap : gmap string nat
}.

Definition Parser_new (program version description : string) : Parser :=
  {| mProgram := program; mVersion := version;
     mParserDescription := description;
     mOptionRefs := []; mOptionsMap := ∅ |}.

(** The loop of [addOption]: [mOptionsMap[opt] = &ref] for each alias. *)
Fixpoint bind_aliases (m : gmap string nat) (opts : list string) (ref : nat)
  : gmap string nat :=
  match opts with
  | [] => m
  | opt :: rest => bind_aliases (<[opt := ref]> m) rest ref
  end.

Definition addOption (p : Parser) (option : Option) : Parser :=
  let ref := length (mOptionRefs p) in
  {| mProgram := mProgram p; mVersion := mVersion p;
     mParserDescription := mParserDescription p;
     mOptionRefs := mOptionRefs p ++ [option];
     mOptionsMap := bind_aliases (mOptionsMap p) (mOpts option) ref |}.

Fixpoint addOptions (p : Parser) (options : list Option) : Parser :=
  match options with
  | [] => p
  | option :: rest => addOptions (addOption p option) rest
  end.

(** [Parser::operator()] *)
Definition lookup_option (p : Parser) (opt : string) : result Option :=
  match mOptionsMap p !! opt with
  | None => Throw {| what := "Option Not Found!" |}
  | Some ref =>
      match mOptionRefs p !! ref with
      | Some o => Ret o
      | None => Undefined
      end
  end.

(** Writing through an [Option*]. *)
Definition store (p : Parser) (ref : nat) (o : Option) : Parser :=
  {| mProgram := mProgram p; mVersion := mVersion p;
     mParserDescription := mParserDescription p;
     mOptionRefs := <[ref := o]> (mOptionRefs p);
     mOptionsMap := mOptionsMap p |}.

(** ** Parser::composeHelpString *)

Definition separtor : string := fill CLI_MAX_LINE_WIDTH "-"%char.

Definition column (percent : nat) : nat :=
  Nat.div (CLI_MAX_LINE_WIDTH * percent) 100.

(** The label of one option row. *)
Definition optsStr_of (opt : Option) : result string :=
  match mOpts opt with
  | [] => Undefined
  | front :: others =>
      let optsStr := (if mMandatory opt then "*" else EmptyString) +:+ front in
      let optsStr := foldl (λ acc it, acc +:+ ", " +:+ it) optsStr others in
      Ret (if 0 <? length (mArgsRef opt) then optsStr +:+ " {args...}"
           else optsStr)
  end.

Fixpoint help_arguments (ss : string) (args : list Argument) : result string :=
  match args with
  | [] => Ret ss
  | arg :: rest =>
      let argStr := "{" +:+ mId arg +:+ "} => " in
      wrapped ← splitWords (mDesc arg) (column 70) (fill (column 30) space);
      help_arguments
        (ss +:+ fill (column 30) space +:+ argStr +:+ wrapped +:+ endl) rest
  end.

Fixpoint help_options (ss : string) (opts : list Option) : result string :=
  match opts with
  | [] => Ret ss
  | opt :: rest =>
      optsStr ← optsStr_of opt;
      wrapped ← splitWords (mDescription opt) (column 70)
                  (fill (column 30) space);
      let ss := ss +:+ setw_left (column 30) optsStr +:+ wrapped +:+ endl in
      ss ← (if 0 <? length (mArgsRef opt) then
              help_arguments
                (ss +:+ fill (column 30) space +:+ "Arguments: " +:+ endl)
                (mArgsRef opt)
            else Ret ss);
      help_options ss rest
  end.

Definition composeHelpString (p : Parser) : result string :=
  let ss := EmptyString in
  let ss :=
    if 0 <? String.length (mProgram p) then
      ss +:+ separtor +:+ endl
         +:+ setw_left (column 75) (mProgram p)
         +:+ setw_right (column 25) (mVersion p)
         +:+ endl +:+ separtor +:+ endl
    else ss in
  ss ← (if 0 <? String.length (mParserDescription p) then
          wrapped ← splitWords (mParserDescription p) CLI_MAX_LINE_WIDTH
                      EmptyString;
          Ret (ss +:+ wrapped +:+ endl +:+ separtor +:+ endl)
        else Ret ss);
  help_options (ss +:+ endl) (mOptionRefs p).

(** ** Parser::parse *)

(** What a call of [parse] can change: the registry, the state the
    validators captured, and the output written so far. *)
Record State := mkState {
  st_parser : Parser;
  st_env : Env;
  st_out : list Event
}.

Definition with_parser (s : State) (p : Parser) : State :=
  {| st_parser := p; st_env := st_env s; st_out := st_out s |}.
Definition with_env (s : State) (e : Env) : State :=
  {| st_parser := st_parser s; st_env := e; st_out := st_out s |}.
Definition emit (s : State) (evs : list Event) : State :=
  {| st_parser := st_parser s; st_env := st_env s;
     st_out := st_out s ++ evs |}.

(** How one iteration of the [for] loop ends: it goes on with the next
    cursor, or [parse] returns. *)
Inductive Control :=
| Next (i : nat) (s : State)
| Return (r : ParsingResult) (s : State).

(** The part of the loop body after [auto& opt = mOptionsMap[arg]]: [opt]
    is the option the pointer [ref] names.  The slots are filled in place,
    then the validator is asked, then the option is marked provided. *)
Definition parse_option (argv : list string) (i : nat) (s : State)
    (arg : string) (ref : nat) (opt : Option) : Control :=
  let '(args, i', missing) := fill_args argv i (mArgsRef opt) in
  let opt := set_mArgsRef opt args in
  let s := with_parser s (store (st_parser s) ref opt) in
  match missing with
  | Some id => Return PARSED_FAILED (emit s [Cerr (missing_argument id arg)])
  | None =>
      let provided s :=
        with_parser s (store (st_parser s) ref (set_mProvided opt true)) in
      match mValidator opt with
      | None => Next (S i') (provided s)
      | Some validator =>
          let '(ok, env) := validator args (st_env s) in
          let s := emit (with_env s env) [Validated ref args ok] in
          if ok then Next (S i') (provided s)
          else Return PARSED_FAILED_VALIDATOR s
      end
  end.

(** The body of [for (int i = 1; i < argc; ++i)], entered with [i < argc];
    [Next] carries the cursor after the loop's [++i]. *)
Definition parse_body (argv : list string) (i : nat) (s : State)
  : result Control :=
  let arg := argv !!! i in
  if is_help arg then
    help ← composeHelpString (st_parser s);
    Ret (Return PARSED_HELP (emit s [Cout (help +:+ endl)]))
  else
    match mOptionsMap (st_parser s) !! arg with
    | None => Ret (Return PARSED_FAILED (emit s [Cerr (invalid_argument arg)]))
    | Some ref =>
        match mOptionRefs (st_parser s) !! ref with
        | None => Undefined
        | Some opt => Ret (parse_option argv i s arg ref opt)
        end
    end.

(** The first option, in registration order, whose [checkMandatory] is
    false: the loop after the scan. *)
Fixpoint first_unmet (opts : list Option) : option Option :=
  match opts with
  | [] => None
  | opt :: rest => if checkMandatory opt then first_unmet rest else Some opt
  end.

Definition parse_finish (s : State) : result (ParsingResult * State) :=
  match first_unmet (mOptionRefs (st_parser s)) with
  | Some opt =>
      match mOpts opt with
      | [] => Undefined
      | front :: _ =>
          Ret (PARSED_FAILED, emit s [Cerr (mandatory_not_provided front)])
      end
  | None => Ret (PARSED_OK, s)
  end.

Fixpoint parse_loop (fuel : nat) (argv : list string) (i : nat) (s : State)
  : result (ParsingResult * State) :=
  if i <? length argv then
    match fuel with
    | 0 => OutOfFuel
    | S fuel' =>
        c ← parse_body argv i s;
        match c with
        | Next i' s' => parse_loop fuel' argv i' s'
        | Return r s' => Ret (r, s')
        end
    end
  else parse_finish s.

(** [parse(argc, argv)] on registry [p], with [env] the state the
    validators captured.  Every iteration moves the cursor forward, so
    [argc] iterations are enough. *)
Definition start (p : Parser) (env : Env) : State :=
  {| st_parser := p; st_env := env; st_out := [] |}.

Definition parse (argv : list string) (p : Parser) (env : Env)
  : result (ParsingResult * State) :=
  parse_loop (length argv) argv 1 (start p env).

End WithEnv.

Arguments mkOption {Env}.
Arguments mOpts {Env}.
Arguments mDescription {Env}.
Arguments mMandatory {Env}.
Arguments mArgsRef {Env}.
Arguments mArgsMap {Env}.
Arguments mProvided {Env}.
Arguments mValidator {Env}.
Arguments Option_new {Env}.
Arguments value {Env}.
Arguments checkMandatory {Env}.
Arguments set_mArgsRef {Env}.
Arguments set_mProvided {Env}.
Arguments mkParser {Env}.
Arguments mProgram {Env}.
Arguments mVersion {Env}.
Arguments mParserDescription {Env}.
Arguments mOptionRefs {Env}.
Arguments mOptionsMap {Env}.
Arguments Parser_new {Env}.
Arguments addOption {Env}.
Arguments addOptions {Env}.
Arguments lookup_option {Env}.
Arguments store {Env}.
Arguments optsStr_of {Env}.
Arguments help_options {Env}.
Arguments composeHelpString {Env}.
Arguments mkState {Env}.
Arguments st_parser {Env}.
Arguments st_env {Env}.
Arguments st_out {Env}.
Arguments with_parser {Env}.
Arguments with_env {Env}.
Arguments emit {Env}.
Arguments Next {Env}.
Arguments Return {Env}.
Arguments parse_option {Env}.
Arguments parse_body {Env}.
Arguments start {Env}.
Arguments first_unmet {Env}.
Arguments parse_finish {Env}.
Arguments parse_loop {Env}.
Arguments parse {Env}.

End cli.

Import cli.

(** * Notions used in the statements *)

(** ** Text *)

(** [occurs c s]: the character [c] is in [s]. *)
Fixpoint occurs (c : ascii) (s : string) : Prop :=
  match s with
  | EmptyString => False
  | String a s' => a = c ∨ occurs c s'
  end.

Global Instance occurs_dec (c : ascii) (s : string) : Decision (occurs c s).
Proof. induction s; simpl; apply _. Defined.

(** The lines [splitWords] cuts a text into at width [W]: text that fits
    is one line; longer text is cut at the last space among its first [W]
    characters, the space being dropped, or, if there is none, after
    exactly [W] characters. *)
Inductive Wrapped (W : nat) : string → list string → Prop :=
| Wrapped_last text :
    String.length text ≤ W → Wrapped W text [text]
| Wrapped_space text pre post lines :
    W < String.length text →
    substr_to text W = pre +:+ String space post →
    ¬ occurs space post →
    Wrapped W (post +:+ substr_from text W) lines →
    Wrapped W text (pre :: lines)
| Wrapped_hard text lines :
    W < String.length text →
    ¬ occurs space (substr_to text W) →
    Wrapped W (substr_from text W) lines →
    Wrapped W text (substr_to text W :: lines).

(** The lines after the first, each on a new line behind the padding. *)
Fixpoint continuation (P : string) (lines : list string) : string :=
  match lines with
  | [] => EmptyString
  | line :: rest => endl +:+ P +:+ line +:+ continuation P rest
  end.

(** The text written for [lines]: the first line bare, the others padded. *)
Definition rendered (P : string) (lines : list string) : string :=
  match lines with
  | [] => EmptyString
  | line :: rest => line +:+ continuation P rest
  end.

(** All lines, one after the other, with nothing in between. *)
Fixpoint glued (lines : list string) : string :=
  match lines with
  | [] => EmptyString
  | line :: rest => line +:+ glued rest
  end.


(** ** The scan *)

Section ScanNotions.

Context {Env : Type}.

(** One iteration of the [for] loop that ends in its [++i]: from the loop
    head with cursor and state [a] to the loop head with cursor and state
    [b]. *)
Definition step (argv : list string) : relation (nat * State Env) :=
  λ a b, a.1 < length argv ∧ parse_body argv a.1 a.2 = Ret (Next b.1 b.2).

(** The scan of [argv] started in [s0] comes to the loop head with cursor
    [i] in state [s]. *)
Definition reaches (argv : list string) (s0 : State Env) (i : nat)
    (s : State Env) : Prop :=
  rtc (step argv) (1, s0) (i, s).

(** The option a pointer names in a state. *)
Definition option_at (s : State Env) (ref : nat) : option (Option Env) :=
  mOptionRefs (st_parser s) !! ref.

(** At cursor [i] in state [s] the token is a flag: it is no help spelling
    and the alias index resolves it to [ref], which names [opt]. *)
Definition matches (argv : list string) (s : State Env) (i : nat)
    (ref : nat) (opt : Option Env) : Prop :=
  i < length argv
  ∧ is_help (argv !!! i) = false
  ∧ mOptionsMap (st_parser s) !! (argv !!! i) = Some ref
  ∧ option_at s ref = Some opt.

(** The slots [after] are the slots [before] with the tokens that follow
    the flag at [i] stored in them in order, as far as there are tokens. *)
Definition refilled (argv : list string) (i : nat)
    (before after : list Argument) : Prop :=
  ∀ j, after !! j
       = (λ a, if bool_decide (S (i + j) < length argv)
               then set_mValue a (argv !!! S (i + j)) else a) <$> before !! j.

(** The option with its slots as the inner loop of [parse] leaves them. *)
Definition refill (argv : list string) (i : nat) (opt : Option Env)
  : Option Env :=
  set_mArgsRef opt (fill_args argv i (mArgsRef opt)).1.1.

(** The state an iteration ends in. *)
Definition control_state (c : Control Env) : State Env :=
  match c with
  | Next _ s => s
  | Return _ s => s
  end.

(** [o'] is [o] later in a scan: only slot values and the provided flag
    may differ, and the flag is never taken back. *)
Definition option_evolves (o o' : Option Env) : Prop :=
  mOpts o' = mOpts o
  ∧ mDescription o' = mDescription o
  ∧ mMandatory o' = mMandatory o
  ∧ mArgsMap o' = mArgsMap o
  ∧ mValidator o' = mValidator o
  ∧ mId <$> mArgsRef o' = mId <$> mArgsRef o
  ∧ mDesc <$> mArgsRef o' = mDesc <$> mArgsRef o
  ∧ (mProvided o = true → mProvided o' = true).

Definition registry_evolves (p p' : Parser Env) : Prop :=
  mProgram p' = mProgram p
  ∧ mVersion p' = mVersion p
  ∧ mParserDescription p' = mParserDescription p
  ∧ mOptionsMap p' = mOptionsMap p
  ∧ length (mOptionRefs p') = length (mOptionRefs p)
  ∧ ∀ ref o, mOptionRefs p !! ref = Some o →
      ∃ o', mOptionRefs p' !! ref = Some o' ∧ option_evolves o o'.

(** Every pointer in the alias index names an element of the list. *)
Definition pointers_valid (p : Parser Env) : Prop :=
  ∀ alias ref, mOptionsMap p !! alias = Some ref →
    ref < length (mOptionRefs p).

(** Every option has an alias, so [front()] of its alias list exists. *)
Definition aliases_present (p : Parser Env) : Prop :=
  ∀ ref o, mOptionRefs p !! ref = Some o → mOpts o ≠ [].

End ScanNotions.

(** ** Running a scan *)

(** The loop head [n] iterations after the loop head [a], or the last one
    before that if the scan ends earlier. *)
Fixpoint loop_head {Env : Type} (n : nat) (argv : list string)
    (a : nat * State Env) : nat * State Env :=
  match n with
  | 0 => a
  | S n' =>
      if a.1 <? length argv then
        match parse_body argv a.1 a.2 with
        | Ret (Next i' s') => loop_head n' argv (i', s')
        | _ => a
        end
      else a
  end.

(** The state [parse] returns, when it returns. *)
Definition final_state {Env : Type} (argv : list string) (p : Parser Env)
    (env : Env) : State Env :=
  match parse argv p env with
  | Ret (_, sf) => sf
  | _ => start p env
  end.

(** ** Example registries *)

(** The registry of the sample program.  Its validator sets the flag
    [showVersion], which is the state [Env] here. *)
Definition sample_version : Option bool :=
  Option_new ["-v"; "--version"] "Shows the application version." false []
    (Some (λ _ _, (true, true))).

Definition sample_mandatory : Option bool :=
  Option_new ["--mandatory"]
    "This a mandatory argument and it expect two following args {arg1} and {arg2}."
    true
    [Argument_new "arg1" "The argument 1.";
     Argument_new "arg2" "The argument 2."]
    None.

Definition sample : Parser bool :=
  addOptions
    (Parser_new "Sample Application" "9.9.9.9"
       ("This is a sample application description. The string here will be there"
        +:+ "break into multiple lines if they overlap CLI_MAX_LINE_WIDTH"))
    [sample_version; sample_mandatory].

(** An option whose validator rejects the value [bad]. *)
Definition picky_validator : Validator unit :=
  λ args env,
    (match args with
     | a :: _ => negb (String.eqb (mValue a) "bad")
     | [] => true
     end, env).

Definition picky_x : Option unit :=
  Option_new ["-x"] "A value." true [Argument_new "n" "The value."]
    (Some picky_validator).

Definition picky : Parser unit :=
  addOptions (Parser_new "picky" "1" EmptyString) [picky_x].

(** A mandatory option registered under the reserved spelling [-h]. *)
Definition host : Parser unit :=
  addOptions (Parser_new "host" "1" EmptyString)
    [ Option_new ["-h"; "--host"] "The host." true
        [Argument_new "name" "The host name."] None ].

(** Two options registered under the same alias. *)
Definition first_a : Option unit :=
  Option_new ["-a"] "The first." false [] None.
Definition second_a : Option unit :=
  Option_new ["-a"; "--again"] "The second." false [] None.

(** Token streams for the examples. *)
Definition only_version : list string := ["prog"; "-v"].
Definition mandatory_once : list string := ["prog"; "--mandatory"; "X"; "Y"].
Definition mandatory_short : list string :=
  ["prog"; "-v"; "--mandatory"; "X"].
Definition mandatory_twice : list string :=
  ["prog"; "--mandatory"; "A"; "B"; "-v"; "--mandatory"; "C"; "D"].
Definition picky_bad : list string := ["prog"; "-x"; "ok"; "-x"; "bad"].
Definition host_help : list string := ["prog"; "-h"; "example.org"].

(** ** Output *)

(** The record of a validator call that accepted. *)
Definition accepted (e : Event) : Prop :=
  ∃ ref args, e = Validated ref args true.

(** The last thing [parse] writes when it returns [r]: the help text, a
    diagnostic, or the record of the validator call that rejected. *)
Definition closes (r : ParsingResult) (e : Event) : Prop :=
  match r with
  | PARSED_OK => False
  | PARSED_HELP => ∃ text, e = Cout text
  | PARSED_FAILED => ∃ text, e = Cerr text
  | PARSED_FAILED_VALIDATOR => ∃ ref args, e = Validated ref args false
  end.

(** ** More examples *)

(** An option with two slots of the same id, both filled. *)
Definition twin : Option unit :=
  set_mArgsRef
    (Option_new ["-d"] "Twice." false
       [Argument_new "x" "The first."; Argument_new "x" "The second."] None)
    [set_mValue (Argument_new "x" "The first.") "1";
     set_mValue (Argument_new "x" "The second.") "2"].

(** A registry with an option that has no alias. *)
Definition nameless : Parser unit :=
  addOptions (Parser_new "nameless" "1" EmptyString)
    [Option_new [] "No alias." false [] None].

(** A registry without validators. *)
Definition plain : Parser bool :=
  addOptions (Parser_new "plain" "1" EmptyString)
    [Option_new ["-q"; "--quiet"] "Quiet." false [] None].

(** A mandatory option registered under a help spelling only. *)
Definition reserved_only : Option unit :=
  Option_new ["-h"] "The host." true [Argument_new "name" "The host name."]
    None.
Definition reserved : Parser unit :=
  addOptions (Parser_new "reserved" "1" EmptyString) [reserved_only].

Definition unknown_after_version : list string :=
  ["prog"; "-v"; "--bogus"; "-v"].

(** The mandatory option given twice, the second time one value short. *)
Definition mandatory_again_short : list string :=
  ["prog"; "-v"; "--mandatory"; "A"; "B"; "--mandatory"; "C"].
(** * Lemmas and theorems *)

(** ** Strings *)

Section Strings.

Implicit Types (s a b : string) (c : ascii) (n w : nat).

Lemma app_cons_s c a b : String c a +:+ b = String c (a +:+ b).
Proof. done. Qed.

Lemma app_nil_s a : EmptyString +:+ a = a.
Proof. done. Qed.

Lemma app_assoc_s a b s : (a +:+ b) +:+ s = a +:+ b +:+ s.
Proof.
  induction a as [|x a IH]; [done|]. by rewrite !app_cons_s, IH.
Qed.

Lemma app_empty_s a : a +:+ EmptyString = a.
Proof. induction a as [|x a IH]; [done|]. by rewrite app_cons_s, IH. Qed.

Lemma length_app_s a b :
  String.length (a +:+ b) = String.length a + String.length b.
Proof.
  induction a as [|x a IH]; [done|]. rewrite app_cons_s. simpl. by rewrite IH.
Qed.

Lemma substr_from_0 s : substr_from s 0 = s.
Proof. by destruct s. Qed.

Lemma substr_to_from s n : substr_to s n +:+ substr_from s n = s.
Proof.
  revert s. induction n as [|n IH]; intros [|x s]; simpl; try done.
  by rewrite app_cons_s, IH.
Qed.

Lemma length_substr_to s n :
  String.length (substr_to s n) = n `min` String.length s.
Proof.
  revert s. induction n as [|n IH]; intros [|x s]; simpl; try done.
  by rewrite IH.
Qed.

Lemma length_substr_from s n :
  String.length (substr_from s n) = String.length s - n.
Proof.
  revert s. induction n as [|n IH]; intros [|x s]; simpl; done.
Qed.

Lemma substr_to_all s n : String.length s ≤ n → substr_to s n = s.
Proof.
  revert s. induction n as [|n IH]; intros [|x s]; simpl; try done; try lia.
  intros ?. rewrite IH; [done | lia].
Qed.

Lemma substr_to_app a b : substr_to (a +:+ b) (String.length a) = a.
Proof.
  induction a as [|x a IH]; [by destruct b|].
  rewrite app_cons_s. simpl. by rewrite IH.
Qed.

Lemma substr_from_app a b : substr_from (a +:+ b) (String.length a) = b.
Proof.
  induction a as [|x a IH]; [by destruct b|]. by rewrite app_cons_s.
Qed.

(** Skipping [n] characters of [s] is skipping them in the block of its
    first [w ≥ n] characters and then appending what follows the block. *)
Lemma substr_from_block s w n :
  n ≤ w →
  substr_from s n = substr_from (substr_to s w) n +:+ substr_from s w.
Proof.
  revert s w. induction n as [|n IH]; intros s w Hn.
  - by rewrite !substr_from_0, substr_to_from.
  - destruct w as [|w]; [lia|]. destruct s as [|x s]; simpl; [done|].
    apply IH. lia.
Qed.

Lemma occurs_app c a b : occurs c (a +:+ b) ↔ occurs c a ∨ occurs c b.
Proof.
  induction a as [|x a IH]; [simpl; tauto|].
  rewrite app_cons_s. simpl. tauto.
Qed.

Lemma find_last_of_None s c : find_last_of s c = None ↔ ¬ occurs c s.
Proof.
  induction s as [|x s IH]; simpl; [tauto|].
  destruct (find_last_of s c) as [k|].
  - split; [done|]. intros H. exfalso.
    destruct (decide (occurs c s)) as [|Hn]; [tauto|].
    by apply IH in Hn.
  - assert (¬ occurs c s) by (by apply IH).
    case_decide; split; try done; tauto.
Qed.

(** [find_last_of] finds the last occurrence: the string splits there, and
    the character does not occur after the split. *)
Lemma find_last_of_Some s c k :
  find_last_of s c = Some k →
  s = substr_to s k +:+ String c (substr_from s (k + 1))
  ∧ ¬ occurs c (substr_from s (k + 1))
  ∧ k < String.length s.
Proof.
  revert k. induction s as [|x s IH]; intros k; simpl; [done|].
  destruct (find_last_of s c) as [k'|] eqn:Hk.
  - intros [= <-]. destruct (IH k' eq_refl) as (Hs & Hn & Hl).
    simpl. rewrite app_cons_s, <- Hs. repeat split; [done|lia].
  - case_decide; [|done]. intros [= <-]. subst x. simpl.
    rewrite substr_from_0. repeat split; [|lia].
    by apply find_last_of_None.
Qed.

(** Conversely, a split at a last occurrence is what [find_last_of] finds. *)
Lemma find_last_of_split c a b :
  ¬ occurs c b → find_last_of (a +:+ String c b) c = Some (String.length a).
Proof.
  intros Hb. induction a as [|x a IH].
  - rewrite app_nil_s. simpl.
    apply find_last_of_None in Hb as ->. by case_decide.
  - rewrite app_cons_s. simpl. by rewrite IH.
Qed.

End Strings.

(** ** Word wrapping *)

Section WordWrap.

Implicit Types (W fuel : nat) (P ss copy pad text : string).

Lemma Wrapped_nonempty W text lines : Wrapped W text lines → lines ≠ [].
Proof. by destruct 1. Qed.

Lemma Wrapped_functional W text lines lines' :
  Wrapped W text lines → Wrapped W text lines' → lines = lines'.
Proof.
  intros H. revert lines'.
  induction H as [text Hl|text pre post lines Hl Hb Hn _ IH|text lines Hl Hn _ IH];
    intros lines' H'.
  - inversion H'; subst; [done|lia..].
  - inversion H' as [|? pre' post' ? ? Hb' Hn'|? ? ? Hn']; subst; [lia| |].
    + assert (find_last_of (substr_to text W) space = Some (String.length pre))
        as H1 by (rewrite Hb; by apply find_last_of_split).
      assert (find_last_of (substr_to text W) space = Some (String.length pre'))
        as H2 by (rewrite Hb'; by apply find_last_of_split).
      assert (pre = pre') as <-.
      { rewrite <- (substr_to_app pre (String space post)), <- Hb.
        rewrite <- (substr_to_app pre' (String space post')), <- Hb'.
        congruence. }
      rewrite Hb in Hb'. apply (inj (String.app pre)) in Hb'.
      injection Hb' as <-. f_equal. by apply IH.
    + exfalso. apply Hn'. rewrite Hb. apply occurs_app. right. simpl. tauto.
  - inversion H' as [|? pre' post' ? ? Hb' Hn'|]; subst; [lia| |].
    + exfalso. apply Hn. rewrite Hb'. apply occurs_app. right. simpl. tauto.
    + f_equal. by apply IH.
Qed.

(** Every line fits the width. *)
Lemma Wrapped_fits W text lines :
  Wrapped W text lines → Forall (λ line, String.length line ≤ W) lines.
Proof.
  induction 1 as [text Hl|text pre post lines Hl Hb Hn _ IH|text lines Hl Hn _ IH].
  - by repeat constructor.
  - constructor; [|done].
    assert (String.length (substr_to text W) = W) as HW
      by (rewrite length_substr_to; lia).
    rewrite Hb, length_app_s in HW. lia.
  - constructor; [|done]. rewrite length_substr_to. lia.
Qed.

(** Text without a space is only cut, never shortened. *)
Lemma Wrapped_glued W text lines :
  Wrapped W text lines → ¬ occurs space text → glued lines = text.
Proof.
  induction 1 as [text Hl|text pre post lines Hl Hb Hn _ IH|text lines Hl Hn _ IH];
    intros Hs; simpl.
  - apply app_empty_s.
  - exfalso. apply Hs. rewrite <- (substr_to_from text W), Hb.
    rewrite !occurs_app. simpl. tauto.
  - rewrite IH; [apply substr_to_from|].
    intros Ho. apply Hs. rewrite <- (substr_to_from text W).
    apply occurs_app. tauto.
Qed.

Lemma splitWords_loop_spec fuel W P ss copy pad :
  0 < W → String.length copy ≤ fuel + W →
  ∃ lines, Wrapped W copy lines
    ∧ splitWords_loop fuel W P ss copy pad
      = Ret (ss +:+ pad +:+ match lines with
                             | [] => EmptyString
                             | line :: rest => line +:+ continuation P rest
                             end).
Proof.
  intros HW. revert ss copy pad.
  induction fuel as [|fuel IH]; intros ss copy pad Hfuel; simpl.
  - destruct (W <? String.length copy) eqn:Hlt.
    { apply Nat.ltb_lt in Hlt. lia. }
    apply Nat.ltb_ge in Hlt. exists [copy]. split; [by constructor|].
    simpl. by rewrite app_empty_s.
  - destruct (W <? String.length copy) eqn:Hlt.
    + apply Nat.ltb_lt in Hlt.
      destruct (find_last_of (substr_to copy W) space) as [index|] eqn:Hf.
      * destruct (find_last_of_Some _ _ _ Hf) as (Hb & Hn & Hi).
        rewrite length_substr_to in Hi.
        rewrite (substr_from_block copy W (index + 1)) by lia.
        destruct (IH (ss +:+ pad +:+ substr_to (substr_to copy W) index +:+ endl)
                     (substr_from (substr_to copy W) (index + 1)
                      +:+ substr_from copy W) P) as (lines & Hw & ->).
        { rewrite length_app_s, !length_substr_from, length_substr_to. lia. }
        exists (substr_to (substr_to copy W) index :: lines). split.
        -- by eapply Wrapped_space.
        -- f_equal. destruct lines as [|line rest];
             [by apply Wrapped_nonempty in Hw|].
           simpl. by rewrite !app_assoc_s.
      * apply find_last_of_None in Hf.
        destruct (IH (ss +:+ pad +:+ substr_to copy W +:+ endl)
                     (substr_from copy W) P) as (lines & Hw & ->).
        { rewrite length_substr_from. lia. }
        exists (substr_to copy W :: lines). split.
        -- by eapply Wrapped_hard.
        -- f_equal. destruct lines as [|line rest];
             [by apply Wrapped_nonempty in Hw|].
           simpl. by rewrite !app_assoc_s.
    + apply Nat.ltb_ge in Hlt. exists [copy]. split; [by constructor|].
      simpl. by rewrite app_empty_s.
Qed.

(** [splitWords] returns for every positive width. *)
Lemma splitWords_total value W P : 0 < W → ∃ out, splitWords value W P = Ret out.
Proof.
  intros HW. unfold splitWords.
  destruct (splitWords_loop_spec (String.length value) W P EmptyString value
              EmptyString HW) as (lines & _ & ->); [lia|]. eauto.
Qed.

(** At width 0 the loop never ends on a text that is not empty: each round
    writes an empty line and takes nothing off the text. *)
Lemma splitWords_zero_width fuel P ss copy pad :
  copy ≠ EmptyString → splitWords_loop fuel 0 P ss copy pad = OutOfFuel.
Proof.
  intros Hc. revert ss pad. induction fuel as [|fuel IH]; intros ss pad;
    destruct copy as [|x copy]; try done.
  simpl. apply IH.
Qed.

(** C8 (amended).  For every text, every width [W ≥ 1] and every padding
    [P], [splitWords] returns, and what it returns is the text cut into
    lines as [Wrapped] says: while the remaining text is longer than [W]
    the function looks at its first [W] characters, cuts at the last space
    among them and drops that space, or cuts after exactly [W] characters
    if there is no space; remaining text of at most [W] characters is the
    last line, whole, spaces included.  The first line is written bare and
    every later line behind [P].  The lines are determined by the text, no
    line is longer than [W], and a text without spaces is the lines glued
    together: a hard cut loses and repeats nothing. *)
Theorem splitWords_wraps value W P :
  0 < W →
  ∃ lines,
    Wrapped W value lines
    ∧ splitWords value W P = Ret (rendered P lines)
    ∧ (∀ lines', Wrapped W value lines' → lines' = lines)
    ∧ Forall (λ line, String.length line ≤ W) lines
    ∧ (¬ occurs space value → glued lines = value).
Proof.
  intros HW. unfold splitWords.
  destruct (splitWords_loop_spec (String.length value) W P EmptyString value
              EmptyString HW) as (lines & Hw & ->); [lia|].
  exists lines. split; [done|]. split; [by rewrite !app_nil_s|].
  split; [|split].
  - intros lines' Hw'. by eapply Wrapped_functional.
  - by eapply Wrapped_fits.
  - by apply (Wrapped_glued W).
Qed.

End WordWrap.

Lemma splitWords_wraps_witness :
  0 < 7
  ∧ ∃ lines,
      Wrapped 7 "hello world-wide web" lines
      ∧ splitWords "hello world-wide web" 7 "  " = Ret (rendered "  " lines)
      ∧ (∀ lines', Wrapped 7 "hello world-wide web" lines' → lines' = lines)
      ∧ Forall (λ line, String.length line ≤ 7) lines
      ∧ (¬ occurs space "hello world-wide web"
         → glued lines = "hello world-wide web").
Proof.
  split; [lia|]. apply (splitWords_wraps "hello world-wide web" 7 "  "). lia.
Defined.

(** A run of the example above. *)
Example splitWords_example :
  splitWords "hello world-wide web" 7 "  "
  = Ret ("hello" +:+ endl +:+ "  world-w" +:+ endl +:+ "  ide web").
Proof. reflexivity. Qed.

(** C8, as stated, fails on text that fits the width and has a space in
    it: the longest prefix of at most 80 characters of ["a b"] is the text
    itself, it contains a space, and yet [splitWords] does not cut at that
    space; it returns the text on one line. *)
Lemma splitWords_fitting_text_not_cut :
  substr_to "a b" 80 = "a b"
  ∧ occurs space (substr_to "a b" 80)
  ∧ splitWords "a b" 80 ">" = Ret "a b"
  ∧ splitWords "a b" 80 ">" ≠ Ret ("a" +:+ endl +:+ ">" +:+ "b").
Proof. repeat split; [simpl; tauto | done]. Qed.


(** ** The inner loop over the slots *)

Section FillArgs.

Implicit Types (argv : list string) (args : list Argument) (i j : nat).

Lemma fill_args_refilled argv i args :
  refilled argv i args (fill_args argv i args).1.1.
Proof.
  revert i. induction args as [|a rest IH]; intros i j; simpl; [done|].
  destruct (length argv <=? i + 1) eqn:Hle.
  - apply Nat.leb_le in Hle. simpl.
    destruct ((a :: rest) !! j) as [x|]; simpl; [|done].
    rewrite bool_decide_eq_false_2; [done | lia].
  - apply Nat.leb_gt in Hle. specialize (IH (S i)).
    destruct (fill_args argv (S i) rest) as [[rest' i'] missing]. simpl in *.
    destruct j as [|j]; simpl.
    + rewrite bool_decide_eq_true_2 by lia. by rewrite Nat.add_0_r.
    + rewrite IH. by replace (S (S i + j)) with (S (i + S j)) by lia.
Qed.

Lemma fill_args_length argv i args :
  length (fill_args argv i args).1.1 = length args.
Proof.
  revert i. induction args as [|a rest IH]; intros i; simpl; [done|].
  destruct (length argv <=? i + 1); [done|]. specialize (IH (S i)).
  destruct (fill_args argv (S i) rest) as [[rest' i'] missing]. simpl in *.
  by rewrite IH.
Qed.

(** With a token for every slot the loop runs through. *)
Lemma fill_args_enough argv i args :
  i + length args < length argv →
  (fill_args argv i args).1.2 = i + length args
  ∧ (fill_args argv i args).2 = None.
Proof.
  revert i. induction args as [|a rest IH]; intros i; simpl; [by auto with lia|].
  intros Hlt. destruct (length argv <=? i + 1) eqn:Hle.
  { apply Nat.leb_le in Hle. lia. }
  specialize (IH (S i)).
  destruct (fill_args argv (S i) rest) as [[rest' i'] missing]. simpl in *.
  destruct IH as [-> ->]; [lia|]. split; [lia | done].
Qed.

(** With too few tokens the loop returns at the first slot without one. *)
Lemma fill_args_short argv i args :
  i < length argv → length argv ≤ i + length args →
  ∃ slot, args !! (length argv - S i) = Some slot
          ∧ (fill_args argv i args).2 = Some (mId slot).
Proof.
  revert i. induction args as [|a rest IH]; intros i Hi; simpl; [lia|].
  intros Hle. destruct (length argv <=? i + 1) eqn:Hc.
  - apply Nat.leb_le in Hc. exists a.
    by replace (length argv - S i) with 0 by lia.
  - apply Nat.leb_gt in Hc. destruct (IH (S i)) as (slot & Hs & Hm); [lia..|].
    destruct (fill_args argv (S i) rest) as [[rest' i'] missing]. simpl in *.
    exists slot. split; [|done].
    by replace (length argv - S i) with (S (length argv - S (S i))) by lia.
Qed.

(** Only the tokens behind the cursor are read. *)
Lemma fill_args_ext argv argv' i args :
  length argv = length argv' →
  (∀ j, i < j → argv !!! j = argv' !!! j) →
  fill_args argv i args = fill_args argv' i args.
Proof.
  intros Hl. revert i. induction args as [|a rest IH]; intros i Heq; simpl;
    [done|].
  rewrite <- Hl. destruct (length argv <=? i + 1); [done|].
  rewrite (IH (S i)) by (intros; apply Heq; lia).
  by rewrite (Heq (S i)) by lia.
Qed.

(** When the loop runs through, only the tokens it stores matter. *)
Lemma fill_args_prefix argv argv' i args :
  i + length args < length argv → i + length args < length argv' →
  (∀ j, j ≤ i + length args → argv !!! j = argv' !!! j) →
  fill_args argv i args = fill_args argv' i args.
Proof.
  revert i. induction args as [|a rest IH]; intros i H1 H2 Heq; simpl in *;
    [done|].
  destruct (length argv <=? i + 1) eqn:Hc; [apply Nat.leb_le in Hc; lia|].
  destruct (length argv' <=? i + 1) eqn:Hc'; [apply Nat.leb_le in Hc'; lia|].
  rewrite (IH (S i)) by (try lia; intros; apply Heq; lia).
  by rewrite (Heq (S i)) by lia.
Qed.

Lemma refilled_ids argv i args args' :
  refilled argv i args args' → mId <$> args' = mId <$> args.
Proof.
  intros H. apply list_eq. intros j. rewrite !list_lookup_fmap, H.
  destruct (args !! j) as [a|]; simpl; [|done]. by case_bool_decide.
Qed.

Lemma refilled_descs argv i args args' :
  refilled argv i args args' → mDesc <$> args' = mDesc <$> args.
Proof.
  intros H. apply list_eq. intros j. rewrite !list_lookup_fmap, H.
  destruct (args !! j) as [a|]; simpl; [|done]. by case_bool_decide.
Qed.

End FillArgs.

(** ** One iteration *)

Section Iteration.

Context {Env : Type}.

Implicit Types (argv : list string) (p : Parser Env) (s : State Env).
Implicit Types (opt o : Option Env) (c : Control Env) (i j ref : nat).

Lemma set_mProvided_refill argv i o :
  set_mProvided (refill argv i o) (mProvided o) = refill argv i o.
Proof. done. Qed.

Lemma store_store p ref o o' : store (store p ref o) ref o' = store p ref o'.
Proof. unfold store. simpl. by rewrite list_insert_insert_eq. Qed.

Lemma store_same p ref o : mOptionRefs p !! ref = Some o → store p ref o = p.
Proof.
  intros H. unfold store. rewrite list_insert_id by done. by destruct p.
Qed.

(** The matched option with too few tokens behind the flag: [parse]
    returns from inside the slot loop. *)
Lemma parse_option_short argv i s arg ref opt :
  i < length argv → length argv ≤ i + length (mArgsRef opt) →
  ∃ slot, mArgsRef opt !! (length argv - S i) = Some slot
    ∧ parse_option argv i s arg ref opt
      = Return PARSED_FAILED
          (emit (with_parser s (store (st_parser s) ref (refill argv i opt)))
                [Cerr (missing_argument (mId slot) arg)]).
Proof.
  intros Hi Hle.
  destruct (fill_args_short argv i (mArgsRef opt) Hi Hle) as (slot & Hs & Hm).
  exists slot. split; [done|]. unfold parse_option, refill.
  destruct (fill_args argv i (mArgsRef opt)) as [[args i'] missing].
  simpl in *. by subst missing.
Qed.

(** The matched option with a token for every slot. *)
Lemma parse_option_enough argv i s arg ref opt :
  i + length (mArgsRef opt) < length argv →
  parse_option argv i s arg ref opt
  = let opt1 := refill argv i opt in
    let s1 := with_parser s (store (st_parser s) ref opt1) in
    let marked s2 :=
      with_parser s2 (store (st_parser s) ref (set_mProvided opt1 true)) in
    let i' := S (i + length (mArgsRef opt)) in
    match mValidator opt with
    | None => Next i' (marked s1)
    | Some validator =>
        let verdict := validator (mArgsRef opt1) (st_env s) in
        let s2 := emit (with_env s1 verdict.2)
                       [Validated ref (mArgsRef opt1) verdict.1] in
        if verdict.1 then Next i' (marked s2)
        else Return PARSED_FAILED_VALIDATOR s2
    end.
Proof.
  intros Hlt.
  destruct (fill_args_enough argv i (mArgsRef opt) Hlt) as [Hc Hm].
  unfold parse_option, refill.
  destruct (fill_args argv i (mArgsRef opt)) as [[args i'] missing].
  simpl in *. subst i' missing. destruct (mValidator opt) as [v|]; simpl.
  - destruct (v args (st_env s)) as [ok env]. simpl.
    destruct ok; [|done]. unfold with_parser, emit, with_env. simpl.
    by rewrite store_store.
  - unfold with_parser. simpl. by rewrite store_store.
Qed.

(** What an iteration on a matched option does to the registry. *)
Lemma parse_option_registry argv i s arg ref opt :
  i < length argv →
  ∃ b, st_parser (control_state (parse_option argv i s arg ref opt))
       = store (st_parser s) ref (set_mProvided (refill argv i opt) b)
     ∧ (b = true ∨ b = mProvided opt).
Proof.
  intros Hi.
  destruct (decide (i + length (mArgsRef opt) < length argv)) as [Hlt|Hge].
  - rewrite parse_option_enough by done. simpl.
    destruct (mValidator opt) as [v|]; simpl.
    + destruct (v _ _).1; simpl.
      * exists true. auto.
      * exists (mProvided opt). split; [|auto].
        by rewrite set_mProvided_refill.
    + exists true. auto.
  - destruct (parse_option_short argv i s arg ref opt) as (slot & _ & ->);
      [lia..|]. simpl. exists (mProvided opt). split; [|auto].
    by rewrite set_mProvided_refill.
Qed.

(** An iteration that goes on has matched an option and found a token for
    each of its slots; the cursor is then behind these tokens. *)
Lemma parse_body_Next argv i s i' s' :
  i < length argv → parse_body argv i s = Ret (Next i' s') →
  ∃ ref opt, matches argv s i ref opt
    ∧ i + length (mArgsRef opt) < length argv
    ∧ i' = S (i + length (mArgsRef opt))
    ∧ parse_option argv i s (argv !!! i) ref opt = Next i' s'.
Proof.
  intros Hi. unfold parse_body.
  destruct (is_help (argv !!! i)) eqn:Hh.
  { destruct (composeHelpString (st_parser s)); simpl; congruence. }
  destruct (mOptionsMap (st_parser s) !! (argv !!! i)) as [ref|] eqn:Hr;
    [|congruence].
  destruct (mOptionRefs (st_parser s) !! ref) as [opt|] eqn:Ho; [|congruence].
  intros [= Hp]. exists ref, opt. split; [done|].
  destruct (decide (i + length (mArgsRef opt) < length argv)) as [Hlt|Hge].
  - split; [done|]. split; [|done]. rewrite parse_option_enough in Hp by done.
    simpl in Hp. destruct (mValidator opt) as [v|]; simpl in Hp.
    + destruct (v _ _).1; congruence.
    + congruence.
  - exfalso.
    destruct (parse_option_short argv i s (argv !!! i) ref opt)
      as (slot & _ & Hs); [lia..|]. congruence.
Qed.

Lemma parse_body_matches argv i s ref opt :
  matches argv s i ref opt →
  parse_body argv i s = Ret (parse_option argv i s (argv !!! i) ref opt).
Proof.
  intros (_ & Hh & Hr & Ho). unfold parse_body, option_at in *.
  by rewrite Hh, Hr, Ho.
Qed.

(** An iteration changes the registry at most at the matched option, and
    there only the slots and the provided flag. *)
Lemma parse_body_registry argv i s c :
  i < length argv → parse_body argv i s = Ret c →
  st_parser (control_state c) = st_parser s
  ∨ ∃ ref opt b, matches argv s i ref opt
      ∧ st_parser (control_state c)
        = store (st_parser s) ref (set_mProvided (refill argv i opt) b)
      ∧ (b = true ∨ b = mProvided opt).
Proof.
  intros Hi. unfold parse_body.
  destruct (is_help (argv !!! i)) eqn:Hh.
  { destruct (composeHelpString (st_parser s)); simpl; try congruence.
    intros [= <-]. by left. }
  destruct (mOptionsMap (st_parser s) !! (argv !!! i)) as [ref|] eqn:Hr.
  2:{ intros [= <-]. by left. }
  destruct (mOptionRefs (st_parser s) !! ref) as [opt|] eqn:Ho; [|congruence].
  intros [= <-]. right.
  destruct (parse_option_registry argv i s (argv !!! i) ref opt Hi)
    as (b & Hb & Hor).
  by exists ref, opt, b.
Qed.

Lemma option_evolves_refl o : option_evolves o o.
Proof. by repeat split. Qed.

Lemma option_evolves_trans o1 o2 o3 :
  option_evolves o1 o2 → option_evolves o2 o3 → option_evolves o1 o3.
Proof.
  intros (?&?&?&?&?&?&?&?) (?&?&?&?&?&?&?&?).
  repeat split; try congruence. auto.
Qed.

Lemma registry_evolves_refl p : registry_evolves p p.
Proof.
  repeat split. intros ref o Ho. exists o. split; [done|].
  apply option_evolves_refl.
Qed.

Lemma registry_evolves_trans p1 p2 p3 :
  registry_evolves p1 p2 → registry_evolves p2 p3 → registry_evolves p1 p3.
Proof.
  intros (?&?&?&?&?&H12) (?&?&?&?&?&H23). repeat split; try congruence.
  intros ref o1 Ho1. destruct (H12 ref o1 Ho1) as (o2 & Ho2 & He12).
  destruct (H23 ref o2 Ho2) as (o3 & Ho3 & He23). exists o3.
  split; [done|]. by eapply option_evolves_trans.
Qed.

Lemma registry_evolves_store argv i p ref opt b :
  mOptionRefs p !! ref = Some opt → (b = true ∨ b = mProvided opt) →
  registry_evolves p (store p ref (set_mProvided (refill argv i opt) b)).
Proof.
  intros Ho Hb. unfold store. repeat split; simpl.
  { by rewrite length_insert. }
  intros ref' o Ho'. destruct (decide (ref = ref')) as [<-|Hne].
  - rewrite list_lookup_insert_eq by (by eapply lookup_lt_Some).
    eexists. split; [done|]. assert (o = opt) as -> by congruence.
    repeat split; simpl.
    + eapply refilled_ids, fill_args_refilled.
    + eapply refilled_descs, fill_args_refilled.
    + destruct Hb as [->| ->]; auto.
  - rewrite list_lookup_insert_ne by done. exists o. split; [done|].
    apply option_evolves_refl.
Qed.

Lemma parse_body_evolves argv i s c :
  i < length argv → parse_body argv i s = Ret c →
  registry_evolves (st_parser s) (st_parser (control_state c)).
Proof.
  intros Hi Hc.
  destruct (parse_body_registry argv i s c Hi Hc)
    as [->|(ref & opt & b & (_ & _ & _ & Ho) & -> & Hb)].
  - apply registry_evolves_refl.
  - by apply registry_evolves_store.
Qed.

End Iteration.

(** ** The loop *)

Section Loop.

Context {Env : Type}.

Implicit Types (argv : list string) (p : Parser Env) (s : State Env).
Implicit Types (opt o : Option Env) (c : Control Env) (i j ref fuel : nat).
Implicit Types (a b : nat * State Env).

Lemma step_cursor argv a b : step argv a b → a.1 < b.1 ≤ length argv.
Proof.
  intros [Hi Hb]. apply parse_body_Next in Hb as (ref & opt & _ & ? & ? & _);
    [lia | done].
Qed.

Lemma step_functional argv a b b' : step argv a b → step argv a b' → b = b'.
Proof.
  intros [_ H] [_ H']. destruct b, b'. simpl in *. congruence.
Qed.

Lemma steps_cursor argv a b : rtc (step argv) a b → a.1 ≤ b.1.
Proof.
  induction 1 as [|a a' b Hs _ IH]; [done|]. apply step_cursor in Hs. lia.
Qed.

(** The loop heads of a scan lie on one line. *)
Lemma steps_linear argv a b b' :
  rtc (step argv) a b → rtc (step argv) a b' →
  rtc (step argv) b b' ∨ rtc (step argv) b' b.
Proof.
  intros H. revert b'. induction H as [a|a a' b Hs H IH]; intros b' H'.
  - by left.
  - destruct H' as [|a a'' b' Hs' H'].
    + right. by eapply rtc_l.
    + rewrite <- (step_functional _ _ _ _ Hs Hs') in H'. by apply IH.
Qed.

(** A cursor is reached in one state only. *)
Lemma steps_same_cursor argv a b b' :
  rtc (step argv) a b → rtc (step argv) a b' → b.1 = b'.1 → b = b'.
Proof.
  intros H H' Heq.
  destruct (steps_linear _ _ _ _ H H') as [Hl|Hl];
    (destruct Hl as [|x y z Hs Hl]; [done|]);
    apply step_cursor in Hs; apply steps_cursor in Hl; lia.
Qed.

Lemma steps_evolve argv a b :
  rtc (step argv) a b → registry_evolves (st_parser a.2) (st_parser b.2).
Proof.
  induction 1 as [a|a a' b [Hi Hb] _ IH]; [apply registry_evolves_refl|].
  eapply registry_evolves_trans; [|exact IH].
  by apply (parse_body_evolves argv a.1 a.2 (Next a'.1 a'.2)).
Qed.

(** More fuel than the tokens left changes nothing. *)
Lemma parse_loop_fuel argv fuel fuel' i s :
  length argv - i ≤ fuel → length argv - i ≤ fuel' →
  parse_loop fuel argv i s = parse_loop fuel' argv i s.
Proof.
  revert fuel' i s. induction fuel as [|fuel IH]; intros fuel' i s H H';
    destruct fuel' as [|fuel']; simpl;
    destruct (i <? length argv) eqn:Hi; try done;
    try (apply Nat.ltb_lt in Hi; lia).
  apply Nat.ltb_lt in Hi.
  destruct (parse_body argv i s) as [[i1 s1|r s1]| | |] eqn:Hb; simpl; try done.
  apply parse_body_Next in Hb as (ref & opt & _ & ? & ? & _); [|done].
  apply IH; lia.
Qed.

Lemma parse_loop_S argv fuel i s :
  parse_loop (S fuel) argv i s
  = if i <? length argv then
      c ← parse_body argv i s;
      match c with
      | Next i' s' => parse_loop fuel argv i' s'
      | Return r s' => Ret (r, s')
      end
    else parse_finish s.
Proof. done. Qed.

(** The loop, one iteration unrolled, with the fuel out of sight. *)
Lemma parse_loop_unfold argv i s :
  1 ≤ i →
  parse_loop (length argv) argv i s
  = if i <? length argv then
      c ← parse_body argv i s;
      match c with
      | Next i' s' => parse_loop (length argv) argv i' s'
      | Return r s' => Ret (r, s')
      end
    else parse_finish s.
Proof.
  intros Hi. destruct (i <? length argv) eqn:Hlt.
  - pose proof Hlt as Hlt'. apply Nat.ltb_lt in Hlt'.
    destruct (length argv) as [|n] eqn:Hn; [lia|].
    rewrite (parse_loop_S argv n i s), Hn, Hlt.
    destruct (parse_body argv i s) as [[i1 s1|r s1]| | |] eqn:Hb; simpl;
      try done.
    apply parse_body_Next in Hb as (ref & opt & _ & ? & ? & _); [|lia].
    change (parse_loop n argv i1 s1 = parse_loop (S n) argv i1 s1).
    apply parse_loop_fuel; lia.
  - destruct (length argv) eqn:Hn; simpl; by rewrite ?Hn, Hlt.
Qed.

Lemma parse_loop_steps argv a b :
  1 ≤ a.1 → rtc (step argv) a b →
  parse_loop (length argv) argv a.1 a.2 = parse_loop (length argv) argv b.1 b.2.
Proof.
  intros Ha H. induction H as [a|a a' b Hs _ IH]; [done|].
  pose proof (step_cursor _ _ _ Hs) as Hc. destruct Hs as [Hi Hb].
  rewrite parse_loop_unfold by done.
  apply Nat.ltb_lt in Hi as ->. rewrite Hb. simpl. apply IH. lia.
Qed.

(** From any loop head of its scan, [parse] is the rest of the loop. *)
Lemma parse_reaches argv p env i s :
  reaches argv (start p env) i s →
  parse argv p env = parse_loop (length argv) argv i s.
Proof. intros H. by apply (parse_loop_steps argv (1, _) (i, s)). Qed.

Lemma reaches_cursor argv s0 i s : reaches argv s0 i s → 1 ≤ i.
Proof. intros H. by apply steps_cursor in H. Qed.

Lemma reaches_step argv s0 i s i' s' :
  reaches argv s0 i s → i < length argv →
  parse_body argv i s = Ret (Next i' s') → reaches argv s0 i' s'.
Proof. intros H Hi Hb. eapply rtc_r; [exact H|]. by split. Qed.

Lemma reaches_evolves argv s0 i s :
  reaches argv s0 i s → registry_evolves (st_parser s0) (st_parser s).
Proof. intros H. by apply steps_evolve in H. Qed.

(** How a scan that is at a loop head ends. *)
Lemma parse_loop_end argv fuel a r sf :
  parse_loop fuel argv a.1 a.2 = Ret (r, sf) →
  ∃ b, rtc (step argv) a b
    ∧ ((length argv ≤ b.1 ∧ parse_finish b.2 = Ret (r, sf))
       ∨ (b.1 < length argv ∧ parse_body argv b.1 b.2 = Ret (Return r sf))).
Proof.
  revert a. induction fuel as [|fuel IH]; intros [i s]; simpl;
    destruct (i <? length argv) eqn:Hi; try done.
  - apply Nat.ltb_ge in Hi. intros Hf. exists (i, s). split; [done|]. by left.
  - apply Nat.ltb_lt in Hi.
    destruct (parse_body argv i s) as [[i1 s1|r1 s1]| | |] eqn:Hb; simpl;
      try done.
    + intros Hl. destruct (IH (i1, s1) Hl) as (b & Hr & Hend).
      exists b. split; [|done]. eapply rtc_l; [|exact Hr]. by split.
    + intros [= -> ->]. exists (i, s). split; [done|]. by right.
  - apply Nat.ltb_ge in Hi. intros Hf. exists (i, s). split; [done|]. by left.
Qed.

Lemma parse_end argv p env r sf :
  parse argv p env = Ret (r, sf) →
  ∃ i s, reaches argv (start p env) i s
    ∧ ((length argv ≤ i ∧ parse_finish s = Ret (r, sf))
       ∨ (i < length argv ∧ parse_body argv i s = Ret (Return r sf))).
Proof.
  intros H. destruct (parse_loop_end argv _ (1, start p env) r sf H)
    as ([i s] & Hr & Hend). by exists i, s.
Qed.

Lemma parse_finish_state s r sf :
  parse_finish s = Ret (r, sf) → st_parser sf = st_parser s.
Proof.
  unfold parse_finish. destruct (first_unmet _) as [o|].
  - destruct (mOpts o); [done|]. by intros [= _ <-].
  - by intros [= _ <-].
Qed.

(** From any loop head to the return of [parse], options only evolve. *)
Lemma parse_evolves argv p env i s r sf :
  reaches argv (start p env) i s → parse argv p env = Ret (r, sf) →
  registry_evolves (st_parser s) (st_parser sf).
Proof.
  intros Hr Hp. rewrite (parse_reaches _ _ _ _ _ Hr) in Hp.
  destruct (parse_loop_end argv _ (i, s) r sf Hp) as ([i' s'] & Hs & Hend).
  eapply registry_evolves_trans; [by apply (steps_evolve _ _ _ Hs)|].
  simpl in *. destruct Hend as [[_ Hf]|[Hi Hb]].
  - apply parse_finish_state in Hf as ->. apply registry_evolves_refl.
  - by apply (parse_body_evolves argv i' s' (Return r sf)).
Qed.

End Loop.

(** ** The help text is defined *)

Section Help.

Context {Env : Type}.

Implicit Types (p : Parser Env) (opt o : Option Env).

(** The widths of the help text are positive, so [splitWords] returns. *)
Local Ltac wrap_returns :=
  match goal with
  | |- context [splitWords ?value ?width ?pad] =>
      destruct (splitWords_total value width pad) as [? ->];
      [vm_compute; lia|]
  end.

Lemma help_arguments_total ss args : ∃ out, help_arguments ss args = Ret out.
Proof.
  revert ss. induction args as [|arg rest IH]; intros ss; simpl; [eauto|].
  wrap_returns. simpl. apply IH.
Qed.

Lemma help_options_total ss (opts : list (Option Env)) :
  Forall (λ o, mOpts o ≠ []) opts → ∃ out, help_options ss opts = Ret out.
Proof.
  intros H. revert ss. induction H as [|opt rest Ho _ IH]; intros ss; simpl;
    [eauto|].
  unfold optsStr_of. destruct (mOpts opt) as [|front others]; [done|]. simpl.
  wrap_returns. simpl.
  destruct (0 <? length (mArgsRef opt)); simpl; [|apply IH].
  match goal with
  | |- context [help_arguments ?s ?a] =>
      destruct (help_arguments_total s a) as [out ->]
  end.
  simpl. apply IH.
Qed.

Lemma composeHelpString_total p :
  aliases_present p → ∃ help, composeHelpString p = Ret help.
Proof.
  intros Hp. unfold composeHelpString.
  assert (Forall (λ o : Option Env, mOpts o ≠ []) (mOptionRefs p)) as Hall.
  { apply Forall_lookup. intros ref o. apply Hp. }
  destruct (0 <? String.length (mParserDescription p)); simpl.
  - wrap_returns. simpl. by apply help_options_total.
  - by apply help_options_total.
Qed.

Lemma aliases_present_evolves p p' :
  registry_evolves p p' → aliases_present p → aliases_present p'.
Proof.
  intros (_ & _ & _ & _ & Hlen & He) Hp ref o' Ho'.
  destruct (mOptionRefs p !! ref) as [o|] eqn:Ho.
  - destruct (He ref o Ho) as (o'' & Ho'' & Hm & _).
    assert (o'' = o') as -> by congruence. rewrite Hm. by eapply Hp.
  - apply lookup_ge_None in Ho. apply lookup_lt_Some in Ho'. lia.
Qed.

End Help.

(** ** The claims about [parse] *)

Section Parse.

Context {Env : Type}.

Implicit Types (argv : list string) (p : Parser Env) (s : State Env).
Implicit Types (opt o : Option Env) (c : Control Env) (i j ref fuel : nat).

(** *** The first token *)

Lemma parse_option_argv0 x y rest i s arg ref opt :
  parse_option (x :: rest) i s arg ref opt
  = parse_option (y :: rest) i s arg ref opt.
Proof.
  unfold parse_option.
  rewrite (fill_args_ext (x :: rest) (y :: rest)); [done..|].
  intros [|j] ?; [lia | done].
Qed.

Lemma parse_body_argv0 x y rest i s :
  1 ≤ i → parse_body (x :: rest) i s = parse_body (y :: rest) i s.
Proof.
  intros Hi. destruct i as [|i]; [lia|]. unfold parse_body.
  change ((x :: rest) !!! S i) with (rest !!! i).
  change ((y :: rest) !!! S i) with (rest !!! i).
  destruct (is_help (rest !!! i)); [done|].
  destruct (mOptionsMap (st_parser s) !! (rest !!! i)) as [ref|]; [|done].
  destruct (mOptionRefs (st_parser s) !! ref) as [opt|]; [|done].
  by rewrite (parse_option_argv0 x y).
Qed.

Lemma parse_loop_argv0 x y rest fuel i s :
  1 ≤ i →
  parse_loop fuel (x :: rest) i s = parse_loop fuel (y :: rest) i s.
Proof.
  revert i s. induction fuel as [|fuel IH]; intros i s Hi; [done|].
  rewrite !parse_loop_S, (parse_body_argv0 x y) by done. simpl.
  destruct (i <? S (length rest)) eqn:Hlt; [|done].
  destruct (parse_body (y :: rest) i s) as [[i1 s1|r s1]| | |] eqn:Hb; simpl;
    try done.
  apply Nat.ltb_lt in Hlt.
  apply parse_body_Next in Hb as (ref & opt & _ & ? & ? & _); [|done].
  apply IH. lia.
Qed.

(** C9.  [parse] never reads [argv[0]]: two argument vectors that differ
    only in their first element give the same result, the same registry,
    the same validator calls and the same output, whatever the registry. *)
Theorem parse_ignores_argv0 (x y : string) rest p env :
  parse (x :: rest) p env = parse (y :: rest) p env.
Proof. unfold parse. by apply (parse_loop_argv0 x y rest (S (length rest))). Qed.

(** *** The mandatory options *)

Lemma first_unmet_first (pre post : list (Option Env)) o :
  Forall (λ o', mMandatory o' = true → mProvided o' = true) pre →
  mMandatory o = true → mProvided o = false →
  first_unmet (pre ++ o :: post) = Some o.
Proof.
  intros Hpre Hm Hp. induction Hpre as [|o' pre Ho' _ IH]; simpl.
  - unfold checkMandatory. by rewrite Hm, Hp.
  - unfold checkMandatory.
    destruct (mMandatory o'); simpl; [by rewrite Ho'|done].
Qed.

Lemma first_unmet_none (opts : list (Option Env)) :
  (∀ o, o ∈ opts → mMandatory o = true → mProvided o = true) →
  first_unmet opts = None.
Proof.
  induction opts as [|o opts IH]; intros H; simpl; [done|].
  unfold checkMandatory. destruct (mMandatory o) eqn:Hm; simpl.
  - rewrite (H o) by (done || left). apply IH. intros o' ?. apply H. by right.
  - apply IH. intros o' ?. apply H. by right.
Qed.

(** C1.  When the scan has come to the end of the token stream (no
    iteration returned early), [parse] returns [PARSED_FAILED] if some
    registered option is mandatory and not provided, and its diagnostic
    names the first alias of the first such option in registration order;
    it returns [PARSED_OK], and writes nothing, if every mandatory option
    is provided. *)
Theorem parse_checks_mandatory argv p env i s :
  reaches argv (start p env) i s → length argv ≤ i →
  (∀ pre o post front others,
     mOptionRefs (st_parser s) = pre ++ o :: post →
     Forall (λ o', mMandatory o' = true → mProvided o' = true) pre →
     mMandatory o = true → mProvided o = false →
     mOpts o = front :: others →
     parse argv p env
     = Ret (PARSED_FAILED, emit s [Cerr (mandatory_not_provided front)]))
  ∧ ((∀ o, o ∈ mOptionRefs (st_parser s) →
           mMandatory o = true → mProvided o = true) →
     parse argv p env = Ret (PARSED_OK, s)).
Proof.
  intros Hr Hi. rewrite (parse_reaches _ _ _ _ _ Hr).
  rewrite parse_loop_unfold by (by eapply reaches_cursor).
  apply Nat.ltb_ge in Hi as ->. unfold parse_finish. split.
  - intros pre o post front others -> Hpre Hm Hp Hf.
    by rewrite (first_unmet_first pre post o), Hf.
  - intros Hall. by rewrite first_unmet_none.
Qed.

(** *** The help spellings *)

Lemma parse_body_prefix argv argv' i s i' s' :
  i < length argv → parse_body argv i s = Ret (Next i' s') →
  i' ≤ length argv' → (∀ j, j < i' → argv !!! j = argv' !!! j) →
  parse_body argv' i s = Ret (Next i' s').
Proof.
  intros Hi Hb Hl Heq.
  apply parse_body_Next in Hb as (ref & opt & Hm & Hk & -> & Hp); [|done].
  destruct Hm as (_ & Hh & Hr & Ho). unfold parse_body, option_at in *.
  rewrite <- (Heq i) by lia. rewrite Hh, Hr, Ho. f_equal. rewrite <- Hp.
  unfold parse_option.
  rewrite (fill_args_prefix argv argv'); [done|lia..|].
  intros j ?. apply Heq. lia.
Qed.

Lemma steps_prefix argv argv' (a b : nat * State Env) :
  rtc (step argv) a b →
  b.1 ≤ length argv' → (∀ j, j < b.1 → argv !!! j = argv' !!! j) →
  rtc (step argv') a b.
Proof.
  induction 1 as [a|a a' b Hs Hr IH]; intros Hl Heq; [done|].
  pose proof (steps_cursor _ _ _ Hr) as Hc.
  pose proof (step_cursor _ _ _ Hs) as Hc'. destruct Hs as [Hi Hb].
  eapply rtc_l; [|by apply IH]. split; [lia|].
  eapply parse_body_prefix; [done..|lia|]. intros j ?. apply Heq. lia.
Qed.

(** C3.  When the scan of [argv] comes to a token that is one of
    [--help], [-h] and [/?], [parse] returns [PARSED_HELP] with the
    registry and the validators' state as they were on arrival and the help
    text as its only further output: no mandatory option is checked.
    Nothing is asked of the alias index, so this holds as well when an
    option is registered under that spelling, and no later token is read:
    every token stream with the same tokens up to the help spelling has the
    same result. *)
Theorem parse_help_spelling argv p env i s :
  aliases_present p →
  reaches argv (start p env) i s → i < length argv →
  is_help (argv !!! i) = true →
  ∃ help, composeHelpString (st_parser s) = Ret help
    ∧ ∀ argv', take (S i) argv' = take (S i) argv →
        parse argv' p env
        = Ret (PARSED_HELP, emit s [Cout (help +:+ endl)]).
Proof.
  intros Hp Hr Hi Hh.
  destruct (composeHelpString_total (st_parser s)) as [help Hhelp].
  { eapply aliases_present_evolves; [|exact Hp].
    by apply (reaches_evolves _ _ _ _ Hr). }
  exists help. split; [done|]. intros argv' Ht.
  assert (i < length argv') as Hi'.
  { apply (f_equal length) in Ht. rewrite !length_take in Ht. lia. }
  assert (∀ j, j < S i → argv !!! j = argv' !!! j) as Heq.
  { intros j Hj. rewrite !list_lookup_total_alt.
    rewrite <- (lookup_take_lt argv (S i)), <- (lookup_take_lt argv' (S i))
      by done. by rewrite Ht. }
  assert (reaches argv' (start p env) i s) as Hr'.
  { apply (steps_prefix argv argv' _ _ Hr); simpl; [lia|].
    intros j ?. apply Heq. lia. }
  rewrite (parse_reaches _ _ _ _ _ Hr').
  rewrite parse_loop_unfold by (by eapply reaches_cursor).
  apply Nat.ltb_lt in Hi' as ->. unfold parse_body.
  rewrite <- (Heq i) by lia. by rewrite Hh, Hhelp.
Qed.

(** *** A matched option *)

Lemma refilled_enough argv i (before after : list Argument) j a :
  refilled argv i before after → before !! j = Some a →
  S (i + j) < length argv →
  after !! j = Some (set_mValue a (argv !!! S (i + j))).
Proof.
  intros H Ha Hj. rewrite H, Ha. simpl. by rewrite bool_decide_eq_true_2.
Qed.

Lemma refilled_length argv i (before after : list Argument) :
  refilled argv i before after → length after = length before.
Proof.
  intros H. apply refilled_ids in H. apply (f_equal length) in H.
  by rewrite !length_fmap in H.
Qed.

Lemma option_at_store s ref o o' b :
  option_at s ref = Some o →
  mOptionRefs (store (st_parser s) ref (set_mProvided o' b)) !! ref
  = Some (set_mProvided o' b).
Proof.
  intros Ho. unfold store. simpl. apply list_lookup_insert_eq.
  by eapply lookup_lt_Some.
Qed.

(** The iteration on a matched option leaves the option with its slots
    refilled, whatever way it ends. *)
Lemma parse_option_slots argv i s ref opt :
  matches argv s i ref opt →
  ∃ opt', option_at (control_state (parse_option argv i s (argv !!! i) ref opt))
                    ref = Some opt'
    ∧ refilled argv i (mArgsRef opt) (mArgsRef opt')
    ∧ (mProvided opt' = true ∨ mProvided opt' = mProvided opt).
Proof.
  intros (Hi & _ & _ & Ho).
  destruct (parse_option_registry argv i s (argv !!! i) ref opt Hi)
    as (b & Hb & Hor).
  exists (set_mProvided (refill argv i opt) b). unfold option_at. rewrite Hb.
  split; [by eapply option_at_store|]. split; [apply fill_args_refilled|].
  simpl. destruct Hor as [->| ->]; auto.
Qed.

(** C2.  Let the scan be at a flag that resolves to an option with [k]
    slots.  If fewer than [k] tokens follow the flag, [parse] returns
    [PARSED_FAILED] at once: its only further output is the diagnostic
    that names the first slot without a token, and no validator is called.
    If at least [k] tokens follow, the iteration stores the next [k]
    tokens in the [k] slots in declared order, and, unless the validator
    of the option rejects them, the scan goes on at the token behind them,
    which is the next to be matched as a flag. *)
Theorem parse_consumes_slots argv p env i s ref opt :
  reaches argv (start p env) i s → matches argv s i ref opt →
  (length argv - S i < length (mArgsRef opt) →
   ∃ slot sf,
     mArgsRef opt !! (length argv - S i) = Some slot
     ∧ parse argv p env = Ret (PARSED_FAILED, sf)
     ∧ st_out sf
       = st_out s ++ [Cerr (missing_argument (mId slot) (argv !!! i))]
     ∧ st_env sf = st_env s)
  ∧ (length (mArgsRef opt) ≤ length argv - S i →
     ∃ c opt',
       parse_body argv i s = Ret c
       ∧ option_at (control_state c) ref = Some opt'
       ∧ length (mArgsRef opt') = length (mArgsRef opt)
       ∧ (∀ j a, mArgsRef opt !! j = Some a →
            mArgsRef opt' !! j = Some (set_mValue a (argv !!! S (i + j))))
       ∧ ((c = Next (S (i + length (mArgsRef opt))) (control_state c)
           ∧ reaches argv (start p env) (S (i + length (mArgsRef opt)))
               (control_state c))
          ∨ (c = Return PARSED_FAILED_VALIDATOR (control_state c)
             ∧ ∃ validator, mValidator opt = Some validator
                 ∧ (validator (mArgsRef opt') (st_env s)).1 = false))).
Proof.
  intros Hr Hm. pose proof Hm as (Hi & _ & _ & Ho).
  pose proof (parse_body_matches _ _ _ _ _ Hm) as Hb. split.
  - intros Hlt.
    destruct (parse_option_short argv i s (argv !!! i) ref opt)
      as (slot & Hs & Hp); [lia..|].
    exists slot. eexists. split; [done|].
    rewrite (parse_reaches _ _ _ _ _ Hr).
    rewrite parse_loop_unfold by (by eapply reaches_cursor).
    apply Nat.ltb_lt in Hi as ->. rewrite Hb, Hp. simpl. done.
  - intros Hle. assert (i + length (mArgsRef opt) < length argv) as Hk by lia.
    destruct (parse_option_slots _ _ _ _ _ Hm) as (opt' & Ho' & Hf & _).
    exists (parse_option argv i s (argv !!! i) ref opt), opt'.
    split; [done|]. split; [done|].
    split; [by eapply refilled_length|]. split.
    { intros j a Ha. eapply refilled_enough; [done..|].
      apply lookup_lt_Some in Ha. lia. }
    assert (mArgsRef opt' = mArgsRef (refill argv i opt)) as Hargs.
    { apply list_eq. intros j. rewrite Hf. symmetry. apply fill_args_refilled. }
    rewrite Hargs. clear Ho' Hf Hargs.
    rewrite parse_option_enough in * by done. simpl in *.
    destruct (mValidator opt) as [v|] eqn:Hv.
    + destruct (v _ (st_env s)).1 eqn:Hok; simpl.
      * left. split; [done|]. by eapply reaches_step.
      * right. split; [done|]. by exists v.
    + left. split; [done|]. by eapply reaches_step.
Qed.

(** *** Validators *)

(** C4 (amended).  Let the scan be at a flag that resolves to an option
    with a validator, with a token for each of its slots.  The validator is
    called once, after the slots are filled: the call is recorded with the
    slots holding the tokens behind the flag.  If it returns false,
    [parse] returns [PARSED_FAILED_VALIDATOR] at once, with the call as its
    only further effect, and the provided flag of the option is as it was
    before this occurrence: false if no earlier occurrence was accepted,
    still true otherwise. *)
Theorem parse_asks_validator argv p env i s ref opt validator :
  reaches argv (start p env) i s → matches argv s i ref opt →
  mValidator opt = Some validator →
  i + length (mArgsRef opt) < length argv →
  ∃ args c,
    (∀ j a, mArgsRef opt !! j = Some a →
       args !! j = Some (set_mValue a (argv !!! S (i + j))))
    ∧ length args = length (mArgsRef opt)
    ∧ parse_body argv i s = Ret c
    ∧ st_out (control_state c)
      = st_out s ++ [Validated ref args (validator args (st_env s)).1]
    ∧ st_env (control_state c) = (validator args (st_env s)).2
    ∧ ((validator args (st_env s)).1 = false →
       parse argv p env = Ret (PARSED_FAILED_VALIDATOR, control_state c)
       ∧ ∃ opt', option_at (control_state c) ref = Some opt'
           ∧ mArgsRef opt' = args
           ∧ mProvided opt' = mProvided opt).
Proof.
  intros Hr Hm Hv Hk. pose proof Hm as (Hi & _ & _ & Ho).
  pose proof (parse_body_matches _ _ _ _ _ Hm) as Hb.
  exists (mArgsRef (refill argv i opt)),
         (parse_option argv i s (argv !!! i) ref opt).
  split.
  { intros j a Ha. eapply refilled_enough; [apply fill_args_refilled|done|].
    apply lookup_lt_Some in Ha. lia. }
  split; [apply fill_args_length|]. split; [done|].
  rewrite (parse_reaches _ _ _ _ _ Hr).
  rewrite parse_loop_unfold by (by eapply reaches_cursor).
  apply Nat.ltb_lt in Hi as ->. rewrite Hb.
  rewrite parse_option_enough by done. simpl. rewrite Hv.
  destruct (validator _ (st_env s)).1 eqn:Hok; simpl.
  - split; [done|]. split; [done|]. done.
  - split; [done|]. split; [done|]. intros _. split; [done|].
    exists (refill argv i opt). split; [|done].
    unfold option_at. simpl. apply list_lookup_insert_eq.
    by eapply lookup_lt_Some.
Qed.

(** *** Iterations on other options *)

(** Iterations that do not match [ref] leave the option it names alone. *)
Lemma parse_body_other argv i s c ref :
  i < length argv → parse_body argv i s = Ret c →
  (∀ opt, ¬ matches argv s i ref opt) →
  option_at (control_state c) ref = option_at s ref.
Proof.
  intros Hi Hb Hn. unfold option_at.
  destruct (parse_body_registry argv i s c Hi Hb)
    as [->|(ref' & opt' & b & Hm & -> & _)]; [done|].
  unfold store. simpl. apply list_lookup_insert_ne. intros ->.
  by apply (Hn opt').
Qed.


(** *** Matching an option again *)



(** *** The last occurrence of an option *)

Lemma steps_other argv (a b : nat * State Env) ref :
  rtc (step argv) a b →
  (∀ a' opt, rtc (step argv) a a' → ¬ matches argv a'.2 a'.1 ref opt) →
  option_at b.2 ref = option_at a.2 ref.
Proof.
  induction 1 as [a|a a' b Hs Hr IH]; intros Hn; [done|].
  rewrite IH.
  - destruct Hs as [Hi Hb].
    apply (parse_body_other argv a.1 a.2 (Next a'.1 a'.2) ref Hi Hb).
    intros opt. by apply Hn.
  - intros a'' opt Hr'. apply Hn. by eapply rtc_l.
Qed.

(** The slots of an option, when [parse] returns, hold the tokens behind
    its last occurrence in the scan, as far as there were tokens. *)
Lemma parse_last_occurrence argv p env r sf i s ref opt :
  parse argv p env = Ret (r, sf) →
  reaches argv (start p env) i s → matches argv s i ref opt →
  (∀ i' s' opt', reaches argv (start p env) i' s' → i < i' →
     ¬ matches argv s' i' ref opt') →
  ∃ optf, option_at sf ref = Some optf
    ∧ (∀ j a, mArgsRef opt !! j = Some a → S (i + j) < length argv →
         mArgsRef optf !! j = Some (set_mValue a (argv !!! S (i + j))))
    ∧ refilled argv i (mArgsRef opt) (mArgsRef optf).
Proof.
  intros Hp Hr Hm Hlast. pose proof Hm as (Hi & _ & _ & Ho).
  destruct (parse_end _ _ _ _ _ Hp) as (ie & se & Hre & Hend).
  pose proof (parse_body_matches _ _ _ _ _ Hm) as Hb.
  destruct (parse_option_slots _ _ _ _ _ Hm) as (opt1 & Ho1 & Hf & _).
  assert (∀ j a, mArgsRef opt !! j = Some a → S (i + j) < length argv →
            mArgsRef opt1 !! j = Some (set_mValue a (argv !!! S (i + j))))
    as Hslots by (intros j a ??; by eapply refilled_enough).
  destruct (steps_linear _ _ _ _ Hr Hre) as [Hl|Hl].
  - inversion Hl as [|a [i1 s1] b [_ Hb1] Hl']; subst; simpl in *.
    + (* [parse] returns from the iteration of the occurrence itself *)
      destruct Hend as [[? _]|[_ Hret]]; [lia|].
      rewrite Hb in Hret. injection Hret as Hret. rewrite Hret in Ho1.
      exists opt1. split; [done|]. by split.
    + (* the scan goes on: nothing behind matches this option *)
      rewrite Hb in Hb1. injection Hb1 as Hb1. rewrite Hb1 in Ho1.
      simpl in Ho1.
      assert (reaches argv (start p env) i1 s1) as Hr1
        by (apply (reaches_step argv _ i s i1 s1 Hr Hi); by rewrite Hb, Hb1).
      assert (i < i1) as Hi1.
      { assert (step argv (i, s) (i1, s1)) as Hs
          by (split; [done|]; simpl; by rewrite Hb, Hb1).
        apply step_cursor in Hs. simpl in Hs. lia. }
      assert (∀ a' opt', rtc (step argv) (i1, s1) a' →
                ¬ matches argv a'.2 a'.1 ref opt') as Hn.
      { intros [i' s'] opt' Hr'. simpl. apply Hlast.
        - unfold reaches in *. by trans (i1, s1).
        - apply steps_cursor in Hr'. simpl in Hr'. lia. }
      pose proof (steps_other _ _ _ ref Hl' Hn) as Hsame. simpl in Hsame.
      exists opt1. split; [|by split]. rewrite <- Ho1, <- Hsame.
      destruct Hend as [[_ Hfin]|[Hie Hret]].
      * unfold option_at. by rewrite (parse_finish_state _ _ _ Hfin).
      * apply (parse_body_other argv ie se (Return r sf) ref Hie Hret).
        intros opt'. by apply (Hn (ie, se)).
  - (* the scan cannot have ended before the occurrence *)
    inversion Hl as [|a b c [Hie Hbe] Hl']; subst; simpl in *.
    + destruct Hend as [[? _]|[_ Hret]]; [lia|].
      rewrite Hb in Hret. injection Hret as Hret. rewrite Hret in Ho1.
      exists opt1. split; [done|]. by split.
    + destruct Hend as [[? _]|[_ Hret]]; [lia | congruence].
Qed.

(** *** Reading the values back *)

Lemma index_args_keep (m : gmap string nat) i args id k :
  m !! id = Some k → index_args m i args !! id = Some k.
Proof.
  revert m i. induction args as [|a rest IH]; intros m i Hm; simpl; [done|].
  apply IH. destruct (m !! mId a) eqn:Ha; [done|].
  rewrite lookup_insert_ne; [done|]. intros Heq. congruence.
Qed.

Lemma index_args_fresh (m : gmap string nat) i args j a :
  m !! mId a = None → NoDup (mId <$> args) → args !! j = Some a →
  index_args m i args !! mId a = Some (i + j).
Proof.
  revert m i j. induction args as [|a0 rest IH]; intros m i j Hm Hnd Ha;
    [done|].
  rewrite fmap_cons in Hnd. apply NoDup_cons in Hnd as [Hin Hnd].
  destruct j as [|j]; simpl in *.
  - injection Ha as ->. rewrite Hm. apply index_args_keep.
    rewrite lookup_insert_eq. f_equal. lia.
  - assert (mId a ≠ mId a0) as Hne.
    { intros Heq. apply Hin. rewrite <- Heq.
      apply list_elem_of_fmap. exists a. split; [done|].
      by eapply list_elem_of_lookup_2. }
    rewrite (IH _ (S i) j); [f_equal; lia| |done..].
    destruct (m !! mId a0); [done|]. by rewrite lookup_insert_ne.
Qed.

(** The index is built from the ids alone. *)
Lemma index_args_ids (m : gmap string nat) i args args' :
  mId <$> args = mId <$> args' → index_args m i args = index_args m i args'.
Proof.
  revert m i args'. induction args as [|a rest IH]; intros m i [|a' rest'] Heq;
    try done.
  rewrite !fmap_cons in Heq. injection Heq as Ha Heq. simpl. rewrite Ha.
  by apply IH.
Qed.

(** With distinct slot ids, the index the constructor builds finds each
    slot under its id. *)
Lemma value_by_id (o : Option Env) j a :
  mArgsMap o = index_args ∅ 0 (mArgsRef o) → NoDup (mId <$> mArgsRef o) →
  mArgsRef o !! j = Some a → value o (mId a) = Ret (mValue a).
Proof.
  intros Hmap Hnd Ha. unfold value.
  rewrite Hmap, (index_args_fresh ∅ 0 _ j a); [|done..]. simpl.
  by rewrite Ha.
Qed.

(** C5.  Let [parse] return [PARSED_OK], let [alias] resolve to an option
    that was constructed with distinct slot ids, and let [i] be the
    position of the last flag in the scan that resolved to this option.
    Then every slot [j] of the option has a token at position [i + 1 + j],
    and looking the option up by [alias] and reading the slot by its id
    returns exactly that token. *)
Theorem parse_round_trip argv p env sf alias ref opt0 i s opt :
  parse argv p env = Ret (PARSED_OK, sf) →
  mOptionsMap p !! alias = Some ref →
  mOptionRefs p !! ref = Some opt0 →
  mArgsMap opt0 = index_args ∅ 0 (mArgsRef opt0) →
  NoDup (mId <$> mArgsRef opt0) →
  reaches argv (start p env) i s → matches argv s i ref opt →
  (∀ i' s' opt', reaches argv (start p env) i' s' → i < i' →
     ¬ matches argv s' i' ref opt') →
  ∀ j a, mArgsRef opt0 !! j = Some a →
    S (i + j) < length argv
    ∧ (o ← lookup_option (st_parser sf) alias; value o (mId a))
      = Ret (argv !!! S (i + j)).
Proof.
  intros Hp Ha Ho0 Hmap Hnd Hr Hm Hlast j a Hj.
  pose proof Hm as (Hi & _ & _ & Ho).
  (* the option in the three states *)
  destruct (reaches_evolves _ _ _ _ Hr) as (_ & _ & _ & _ & _ & He0).
  destruct (He0 ref opt0 Ho0) as (opt' & Ho' & Hev0).
  assert (opt' = opt) as -> by (unfold option_at in *; congruence).
  destruct Hev0 as (_ & _ & _ & Hmap0 & _ & Hids0 & _ & _).
  destruct (parse_last_occurrence _ _ _ _ _ _ _ _ _ Hp Hr Hm Hlast)
    as (optf & Hof & Hslots & _).
  destruct (parse_evolves _ _ _ _ _ _ _ Hr Hp) as (_ & _ & _ & Hmapf & _ & Hef).
  destruct (Hef ref opt Ho) as (optf' & Hof' & Hevf).
  assert (optf' = optf) as -> by (unfold option_at in *; congruence).
  destruct Hevf as (_ & _ & _ & Hmap1 & _ & Hids1 & _ & _).
  (* a token for every slot: otherwise [parse] had failed at [i] *)
  assert (i + length (mArgsRef opt) < length argv) as Hk.
  { destruct (decide (i + length (mArgsRef opt) < length argv)); [done|].
    exfalso.
    destruct (parse_option_short argv i s (argv !!! i) ref opt)
      as (slot & _ & Hs); [lia..|].
    rewrite (parse_reaches _ _ _ _ _ Hr) in Hp.
    rewrite parse_loop_unfold in Hp by (by eapply reaches_cursor).
    apply Nat.ltb_lt in Hi. rewrite Hi in Hp.
    by rewrite (parse_body_matches _ _ _ _ _ Hm), Hs in Hp. }
  assert (length (mArgsRef opt) = length (mArgsRef opt0)) as Hlen.
  { apply (f_equal length) in Hids0. by rewrite !length_fmap in Hids0. }
  assert (S (i + j) < length argv) as Hjlt.
  { apply lookup_lt_Some in Hj. lia. }
  split; [done|].
  (* the slot in the state of the occurrence and in the final state *)
  assert (∃ a', mArgsRef opt !! j = Some a' ∧ mId a' = mId a) as (a' & Ha' & Hid).
  { apply (f_equal (λ l, l !! j)) in Hids0.
    rewrite !list_lookup_fmap, Hj in Hids0. simpl in Hids0.
    destruct (mArgsRef opt !! j) as [a'|]; [|done]. exists a'.
    split; [done|]. by injection Hids0. }
  pose proof (Hslots j a' Ha' Hjlt) as Hfin.
  unfold lookup_option. rewrite Hmapf.
  destruct (reaches_evolves _ _ _ _ Hr) as (_ & _ & _ & Hmaps & _ & _).
  simpl in Hmaps. rewrite Hmaps, Ha. unfold option_at in Hof.
  rewrite Hof. simpl. rewrite <- Hid.
  change (mId a') with (mId (set_mValue a' (argv !!! S (i + j)))).
  rewrite (value_by_id optf j); [done| | |done].
  - rewrite Hmap1, Hmap0, Hmap. apply index_args_ids. by rewrite Hids1.
  - by rewrite Hids1, Hids0.
Qed.

(** *** Failure *)

(** An option that no flag resolves to from a loop head on is returned as
    it is at that loop head. *)
Lemma parse_untouched_after argv p env r sf i s ref :
  parse argv p env = Ret (r, sf) →
  reaches argv (start p env) i s →
  (∀ i' s' opt', reaches argv (start p env) i' s' → i ≤ i' →
     ¬ matches argv s' i' ref opt') →
  option_at sf ref = option_at s ref.
Proof.
  intros Hp Hr Hnone.
  destruct (parse_end _ _ _ _ _ Hp) as (ie & se & Hre & Hend).
  assert (rtc (step argv) (i, s) (ie, se)) as Hl.
  { destruct (steps_linear _ _ _ _ Hr Hre) as [Hl|Hl]; [done|].
    inversion Hl as [|a b c [Hie Hbe] Hl']; subst; [done|]. simpl in *.
    destruct Hend as [[? _]|[_ Hret]]; [lia | congruence]. }
  assert (∀ a' opt', rtc (step argv) (i, s) a' →
            ¬ matches argv a'.2 a'.1 ref opt') as Hn.
  { intros [i' s'] opt' Hr'. simpl. apply Hnone.
    - unfold reaches in *. by trans (i, s).
    - apply steps_cursor in Hr'. simpl in Hr'. lia. }
  pose proof (steps_other _ _ _ ref Hl Hn) as Hsame. simpl in Hsame.
  rewrite <- Hsame.
  destruct Hend as [[_ Hfin]|[Hie Hret]].
  - unfold option_at. by rewrite (parse_finish_state _ _ _ Hfin).
  - apply (parse_body_other argv ie se (Return r sf) ref Hie Hret).
    intros opt'. by apply (Hn (ie, se)).
Qed.

(** C10.  [parse] undoes nothing when it fails.  Let [parse] return
    [PARSED_FAILED] or [PARSED_FAILED_VALIDATOR].  A provided flag that was
    true at any loop head of the scan is true in the registry [parse]
    leaves behind.  The slots of an option are, in that registry, what the
    last flag of the scan that resolved to it made of them: a slot for
    which a token followed that flag holds that token, and a slot for which
    none was left holds the value it had on arrival at that flag, captured
    by an earlier occurrence or initial; ids and descriptions are as they
    were.  This covers the occurrence at which [parse] failed, for want of
    a further token or by its validator.  And an option that no flag
    resolves to from some loop head on is, in that registry, exactly as it
    was at that loop head. *)
Theorem parse_failure_keeps_changes argv p env r sf :
  parse argv p env = Ret (r, sf) →
  r = PARSED_FAILED ∨ r = PARSED_FAILED_VALIDATOR →
  (∀ i s ref o,
     reaches argv (start p env) i s →
     option_at s ref = Some o → mProvided o = true →
     ∃ o', option_at sf ref = Some o' ∧ mProvided o' = true)
  ∧ (∀ i s ref opt,
       reaches argv (start p env) i s → matches argv s i ref opt →
       (∀ i' s' opt', reaches argv (start p env) i' s' → i < i' →
          ¬ matches argv s' i' ref opt') →
       ∃ optf, option_at sf ref = Some optf
         ∧ length (mArgsRef optf) = length (mArgsRef opt)
         ∧ (∀ j a, mArgsRef opt !! j = Some a → S (i + j) < length argv →
              mArgsRef optf !! j = Some (set_mValue a (argv !!! S (i + j))))
         ∧ (∀ j a, mArgsRef opt !! j = Some a →
              ∃ af, mArgsRef optf !! j = Some af
                ∧ mId af = mId a ∧ mDesc af = mDesc a
                ∧ mValue af
                  = if bool_decide (S (i + j) < length argv)
                    then argv !!! S (i + j) else mValue a))
  ∧ (∀ i s ref,
       reaches argv (start p env) i s →
       (∀ i' s' opt', reaches argv (start p env) i' s' → i ≤ i' →
          ¬ matches argv s' i' ref opt') →
       option_at sf ref = option_at s ref).
Proof.
  intros Hp _. split; [|split].
  - intros i s ref o Hr Ho Hprov.
    destruct (parse_evolves _ _ _ _ _ _ _ Hr Hp) as (_ & _ & _ & _ & _ & He).
    destruct (He ref o Ho) as (o' & Ho' & Hev). exists o'.
    split; [done|]. by apply Hev.
  - intros i s ref opt Hr Hm Hlast.
    destruct (parse_last_occurrence _ _ _ _ _ _ _ _ _ Hp Hr Hm Hlast)
      as (optf & Ho & Hslots & Hf).
    exists optf. split; [done|]. split; [by eapply refilled_length|].
    split; [done|]. intros j a Ha. rewrite (Hf j), Ha. simpl.
    eexists. split; [done|]. by case_bool_decide.
  - intros i s ref Hr Hnone. by eapply parse_untouched_after.
Qed.

End Parse.

(** ** Registration *)

Section Registry.

Context {Env : Type}.

Implicit Types (p : Parser Env) (o option : Option Env).

Lemma bind_aliases_lookup (m : gmap string nat) opts ref alias :
  bind_aliases m opts ref !! alias
  = if decide (alias ∈ opts) then Some ref else m !! alias.
Proof.
  revert m. induction opts as [|opt rest IH]; intros m; simpl.
  - destruct (decide (alias ∈ [])) as [H|]; [by apply elem_of_nil in H|done].
  - rewrite IH. destruct (decide (alias ∈ rest)) as [Hin|Hnin].
    + rewrite decide_True; [done | by right].
    + destruct (decide (alias = opt)) as [->|Hne].
      * rewrite decide_True by left. by rewrite lookup_insert_eq.
      * rewrite decide_False; [by rewrite lookup_insert_ne|].
        intros [->|?]%elem_of_cons; done.
Qed.

(** C7 (amended).  [addOption] always returns, also when an alias of the
    new option is in the alias index already.  It appends the option to the
    list and binds every alias of the option to the appended element, so an
    alias that was bound before now resolves to the new option; the option
    it resolved to stays in the list, and aliases the new option does not
    have resolve as before. *)
Theorem addOption_rebinds p option :
  mOptionRefs (addOption p option) = mOptionRefs p ++ [option]
  ∧ (∀ alias, alias ∈ mOpts option →
       mOptionsMap (addOption p option) !! alias
       = Some (length (mOptionRefs p))
       ∧ lookup_option (addOption p option) alias = Ret option)
  ∧ (∀ alias, alias ∉ mOpts option →
       mOptionsMap (addOption p option) !! alias = mOptionsMap p !! alias).
Proof.
  split; [done|]. split.
  - intros alias Hin. unfold lookup_option, addOption. simpl.
    rewrite bind_aliases_lookup, decide_True by done. split; [done|].
    by rewrite lookup_app_r, Nat.sub_diag.
  - intros alias Hnin. unfold addOption. simpl.
    by rewrite bind_aliases_lookup, decide_False.
Qed.

Lemma addOption_pointers_valid p option :
  pointers_valid p → pointers_valid (addOption p option).
Proof.
  intros Hp alias ref. unfold addOption. simpl.
  rewrite bind_aliases_lookup, length_app. simpl.
  case_decide; [intros [= <-]; lia|]. intros Hin%Hp. lia.
Qed.

End Registry.

(** ** [parse] returns *)

Section Totality.

Context {Env : Type}.

Implicit Types (argv : list string) (p : Parser Env) (s : State Env).

Lemma pointers_valid_evolves p p' :
  registry_evolves p p' → pointers_valid p → pointers_valid p'.
Proof.
  intros (_ & _ & _ & Hmap & Hlen & _) Hp alias ref. rewrite Hmap, Hlen.
  apply Hp.
Qed.

Lemma Parser_new_pointers_valid program version description :
  pointers_valid (Parser_new (Env := Env) program version description).
Proof. intros alias ref. simpl. by rewrite lookup_empty. Qed.

Lemma addOptions_pointers_valid p options :
  pointers_valid p → pointers_valid (addOptions p options).
Proof.
  revert p. induction options as [|option rest IH]; intros p Hp; [done|].
  simpl. by apply IH, addOption_pointers_valid.
Qed.

Lemma parse_body_defined argv i s :
  pointers_valid (st_parser s) → aliases_present (st_parser s) →
  ∃ c, parse_body argv i s = Ret c.
Proof.
  intros Hp Ha. unfold parse_body. destruct (is_help (argv !!! i)).
  { destruct (composeHelpString_total _ Ha) as [help ->]. simpl. eauto. }
  destruct (mOptionsMap (st_parser s) !! (argv !!! i)) as [ref|] eqn:Hr;
    [|eauto].
  apply Hp in Hr. apply lookup_lt_is_Some_2 in Hr as [opt ->]. eauto.
Qed.

Lemma first_unmet_elem (opts : list (Option Env)) o :
  first_unmet opts = Some o → o ∈ opts.
Proof.
  induction opts as [|o' opts IH]; simpl; [done|].
  destruct (checkMandatory o').
  - intros H. right. by apply IH.
  - intros [= ->]. by left.
Qed.

Lemma parse_finish_defined s :
  aliases_present (st_parser s) → ∃ r sf, parse_finish s = Ret (r, sf).
Proof.
  intros Ha. unfold parse_finish.
  destruct (first_unmet (mOptionRefs (st_parser s))) as [o|] eqn:Hf; [|eauto].
  apply first_unmet_elem, list_elem_of_lookup in Hf as [ref Ho].
  apply Ha in Ho. destruct (mOpts o); [done|eauto].
Qed.

Lemma parse_loop_defined argv fuel i s :
  length argv - i ≤ fuel →
  pointers_valid (st_parser s) → aliases_present (st_parser s) →
  ∃ r sf, parse_loop fuel argv i s = Ret (r, sf).
Proof.
  revert i s. induction fuel as [|fuel IH]; intros i s Hfuel Hp Ha; simpl;
    destruct (i <? length argv) eqn:Hi;
    try (by apply parse_finish_defined); apply Nat.ltb_lt in Hi; [lia|].
  destruct (parse_body_defined argv i s Hp Ha) as [c Hb]. rewrite Hb. simpl.
  destruct c as [i' s'|r s']; [|eauto].
  pose proof (parse_body_evolves argv i s _ Hi Hb) as He. simpl in He.
  apply parse_body_Next in Hb as (ref & opt & _ & ? & ? & _); [|done].
  apply IH; [lia| |].
  - by eapply pointers_valid_evolves.
  - by eapply aliases_present_evolves.
Qed.

(** On a registry whose pointers are valid and whose options have an
    alias each, [parse] returns one of its four results: it neither runs
    out of iterations nor does anything undefined. *)
Lemma parse_returns argv p env :
  pointers_valid p → aliases_present p →
  ∃ r sf, parse argv p env = Ret (r, sf).
Proof. intros Hp Ha. apply parse_loop_defined; [lia|done..]. Qed.

(** An option no flag of the scan resolves to is returned as it was. *)
Lemma parse_never_matched argv p env r sf ref :
  parse argv p env = Ret (r, sf) →
  (∀ i s opt, reaches argv (start p env) i s → ¬ matches argv s i ref opt) →
  option_at sf ref = mOptionRefs p !! ref.
Proof.
  intros Hp Hn. destruct (parse_end _ _ _ _ _ Hp) as (i & s & Hr & Hend).
  assert (option_at s ref = mOptionRefs p !! ref) as <-.
  { apply (steps_other argv (1, start p env) (i, s) ref Hr).
    intros [i' s'] opt Hr'. by apply Hn. }
  destruct Hend as [[_ Hf]|[Hi Hb]].
  - unfold option_at. by rewrite (parse_finish_state _ _ _ Hf).
  - apply (parse_body_other argv i s (Return r sf) ref Hi Hb).
    intros opt. by apply Hn.
Qed.

End Totality.

(** ** Concrete runs *)

Section Runs.

Context {Env : Type}.

Implicit Types (argv : list string) (p : Parser Env) (s : State Env).

Lemma loop_head_steps n argv (a : nat * State Env) :
  rtc (step argv) a (loop_head n argv a).
Proof.
  revert a. induction n as [|n IH]; intros a; simpl; [done|].
  destruct (a.1 <? length argv) eqn:Hlt; [|done]. apply Nat.ltb_lt in Hlt.
  destruct (parse_body argv a.1 a.2) as [[i' s'|r s']| | |] eqn:Hb; try done.
  eapply rtc_l; [|apply IH]. by split.
Qed.

Lemma reaches_loop_head n argv s0 :
  reaches argv s0 (loop_head n argv (1, s0)).1 (loop_head n argv (1, s0)).2.
Proof.
  unfold reaches. pose proof (loop_head_steps n argv (1, s0)) as H.
  by destruct (loop_head n argv (1, s0)).
Qed.

(** A flag whose slots take the rest of the token stream is the last. *)
Lemma last_before_end argv s0 i s i1 s1 ref :
  reaches argv s0 i s → i < length argv →
  parse_body argv i s = Ret (Next i1 s1) → length argv ≤ i1 →
  ∀ i' s' opt', reaches argv s0 i' s' → i < i' → ¬ matches argv s' i' ref opt'.
Proof.
  intros Hr Hi Hb Hend i' s' opt' Hr' Hlt (Hi' & _).
  destruct (steps_linear _ _ _ _ Hr Hr') as [Hl|Hl].
  - inversion Hl as [|a b c Hs Hl']; subst; [lia|].
    assert (b = (i1, s1)) as -> by (eapply step_functional; [done|by split]).
    apply steps_cursor in Hl'. simpl in Hl'. lia.
  - apply steps_cursor in Hl. simpl in Hl. lia.
Qed.

(** No loop head lies between one loop head and the next. *)
Lemma next_loop_head argv s0 i s i1 s1 :
  reaches argv s0 i s → i < length argv →
  parse_body argv i s = Ret (Next i1 s1) →
  ∀ i' s', reaches argv s0 i' s' → i < i' → i1 ≤ i'.
Proof.
  intros Hr Hi Hb i' s' Hr' Hlt.
  destruct (steps_linear _ _ _ _ Hr Hr') as [Hl|Hl].
  - inversion Hl as [|a b c Hs Hl']; subst; [lia|].
    assert (b = (i1, s1)) as -> by (eapply step_functional; [done|by split]).
    apply steps_cursor in Hl'. simpl in Hl'. lia.
  - apply steps_cursor in Hl. simpl in Hl. lia.
Qed.

Lemma aliases_present_check p :
  forallb (λ o, match mOpts o with [] => false | _ => true end)
          (mOptionRefs p) = true →
  aliases_present p.
Proof.
  intros H ref o Ho. rewrite forallb_forall in H.
  specialize (H o). rewrite <- list_elem_of_In in H.
  specialize (H (list_elem_of_lookup_2 _ _ _ Ho)). by destruct (mOpts o).
Qed.

Lemma parse_final_state argv p env r :
  (match parse argv p env with Ret (r', _) => Some r' | _ => None end) = Some r →
  parse argv p env = Ret (r, final_state argv p env).
Proof.
  unfold final_state. destruct (parse argv p env) as [[r' sf]| | |]; try done.
  by intros [= ->].
Qed.

End Runs.

(** Closes the side conditions of a run by evaluation. *)
Ltac evaluate := vm_compute; first [reflexivity | lia | done].

Ltac prove_matches :=
  unfold matches, option_at; repeat split; evaluate.

(** The scenario of the sample program: [--mandatory X Y] is accepted and
    the two values can be read back; [-v] alone lacks the mandatory option;
    [--bogus] is no registered alias. *)
Example sample_accepts :
  parse mandatory_once sample false
  = Ret (PARSED_OK, final_state mandatory_once sample false)
  ∧ (o ← lookup_option (st_parser (final_state mandatory_once sample false))
                       "--mandatory";
     value o "arg1") = Ret "X"
  ∧ (o ← lookup_option (st_parser (final_state mandatory_once sample false))
                       "--mandatory";
     value o "arg2") = Ret "Y"
  ∧ mProvided <$> option_at (final_state mandatory_once sample false) 0
    = Some false
  ∧ st_out (final_state mandatory_once sample false) = [].
Proof. repeat split; evaluate. Qed.

Example sample_lacks_mandatory :
  parse only_version sample false
  = Ret (PARSED_FAILED, final_state only_version sample false)
  ∧ st_out (final_state only_version sample false)
    = [Validated 0 [] true; Cerr (mandatory_not_provided "--mandatory")]
  ∧ st_env (final_state only_version sample false) = true.
Proof. repeat split; evaluate. Qed.

Example sample_rejects_unknown :
  parse ["prog"; "--bogus"] sample false
  = Ret (PARSED_FAILED,
         emit (start sample false) [Cerr (invalid_argument "--bogus")]).
Proof. evaluate. Qed.

Example sample_reading_unknown_names :
  lookup_option sample "--nothing" = Throw {| what := "Option Not Found!" |}
  ∧ value sample_mandatory "arg3" = Throw {| what := "Invalid Argument" |}
  ∧ value sample_mandatory "arg1" = Ret EmptyString.
Proof. repeat split; evaluate. Qed.

Lemma parse_ignores_argv0_witness :
  parse ("prog" :: tail mandatory_once) sample false
  = parse ("other" :: tail mandatory_once) sample false.
Proof. apply parse_ignores_argv0. Defined.

Lemma parse_checks_mandatory_witness :
  length only_version ≤ 2
  ∧ parse only_version sample false
    = Ret (PARSED_FAILED,
           emit (loop_head 1 only_version (1, start sample false)).2
                [Cerr (mandatory_not_provided "--mandatory")])
  ∧ parse mandatory_once sample false
    = Ret (PARSED_OK, (loop_head 1 mandatory_once (1, start sample false)).2).
Proof.
  split; [evaluate|]. split.
  - apply (proj1 (parse_checks_mandatory only_version sample false 2 _
                    (reaches_loop_head 1 only_version (start sample false))
                    ltac:(evaluate))
             [set_mProvided sample_version true] sample_mandatory []
             "--mandatory" []); try evaluate.
    repeat constructor.
  - apply (proj2 (parse_checks_mandatory mandatory_once sample false 4 _
                    (reaches_loop_head 1 mandatory_once (start sample false))
                    ltac:(evaluate))).
    intros o Ho. vm_compute in Ho.
    repeat (apply elem_of_cons in Ho as [-> | Ho]; [done|]).
    by apply elem_of_nil in Ho.
Defined.

Lemma parse_consumes_slots_witness :
  matches mandatory_short (loop_head 1 mandatory_short (1, start sample false)).2
          2 1 sample_mandatory
  ∧ (∃ slot sf,
       mArgsRef sample_mandatory !! 1 = Some slot
       ∧ parse mandatory_short sample false = Ret (PARSED_FAILED, sf)
       ∧ st_out sf
         = [Validated 0 [] true;
            Cerr (missing_argument (mId slot) "--mandatory")]
       ∧ st_env sf = true)
  ∧ (∃ c opt',
       parse_body mandatory_twice 1 (start sample false) = Ret c
       ∧ option_at (control_state c) 1 = Some opt'
       ∧ length (mArgsRef opt') = 2
       ∧ mValue <$> mArgsRef opt' = ["A"; "B"]
       ∧ reaches mandatory_twice (start sample false) 4 (control_state c)).
Proof.
  assert (matches mandatory_short
            (loop_head 1 mandatory_short (1, start sample false)).2
            2 1 sample_mandatory) as Hm by prove_matches.
  split; [exact Hm|]. split.
  - destruct (proj1 (parse_consumes_slots mandatory_short sample false 2 _ 1
                       sample_mandatory
                       (reaches_loop_head 1 mandatory_short
                          (start sample false)) Hm))
      as (slot & sf & Hs & Hp & Hout & Henv); [evaluate|].
    by exists slot, sf.
  - destruct (proj2 (parse_consumes_slots mandatory_twice sample false 1
                       (start sample false) 1 sample_mandatory
                       (rtc_refl _ _) ltac:(prove_matches)))
      as (c & opt' & Hb & Ho & Hlen & Hslots & Hend); [evaluate|].
    exists c, opt'. split; [done|]. split; [done|]. split; [done|]. split.
    + apply list_eq. intros [|[|j]]; rewrite list_lookup_fmap.
      * by rewrite (Hslots 0 _ eq_refl).
      * by rewrite (Hslots 1 _ eq_refl).
      * rewrite (lookup_ge_None_2 (mArgsRef opt')) by (rewrite Hlen; simpl; lia).
        done.
    + destruct Hend as [[_ Hr]|[Hc (v & Hv & _)]]; [exact Hr | done].
Defined.

Lemma parse_help_spelling_witness :
  aliases_present host
  ∧ mOptionsMap host !! "-h" = Some 0
  ∧ ∃ help, composeHelpString host = Ret help
      ∧ parse host_help host ()
        = Ret (PARSED_HELP, emit (start host ()) [Cout (help +:+ endl)])
      ∧ parse ["prog"; "-h"; "--bogus"; "-h"] host ()
        = Ret (PARSED_HELP, emit (start host ()) [Cout (help +:+ endl)]).
Proof.
  assert (aliases_present host) as Hp by (by apply aliases_present_check).
  split; [exact Hp|]. split; [evaluate|].
  destruct (parse_help_spelling host_help host () 1 (start host ()) Hp
              (rtc_refl _ _) ltac:(evaluate) ltac:(evaluate))
    as (help & Hh & Hparse).
  exists help. split; [exact Hh|]. split; by apply Hparse.
Defined.

Lemma parse_asks_validator_witness :
  matches picky_bad (loop_head 1 picky_bad (1, start picky ())).2 3 0
          (set_mProvided (refill picky_bad 1 picky_x) true)
  ∧ ∃ args c,
      mValue <$> args = ["bad"]
      ∧ parse_body picky_bad 3 (loop_head 1 picky_bad (1, start picky ())).2
        = Ret c
      ∧ st_out (control_state c)
        = [Validated 0 [set_mValue (Argument_new "n" "The value.") "ok"] true;
           Validated 0 args false]
      ∧ parse picky_bad picky ()
        = Ret (PARSED_FAILED_VALIDATOR, control_state c)
      ∧ ∃ opt', option_at (control_state c) 0 = Some opt'
          ∧ mArgsRef opt' = args
          ∧ mProvided opt' = true.
Proof.
  assert (matches picky_bad (loop_head 1 picky_bad (1, start picky ())).2 3 0
            (set_mProvided (refill picky_bad 1 picky_x) true)) as Hm
    by prove_matches.
  split; [exact Hm|].
  destruct (parse_asks_validator picky_bad picky () 3 _ 0 _ picky_validator
              (reaches_loop_head 1 picky_bad (start picky ())) Hm
              eq_refl ltac:(evaluate))
    as (args & c & Hslots & Hlen & Hb & Hout & Henv & Hrej).
  assert (args = [set_mValue (Argument_new "n" "The value.") "bad"]) as Hargs.
  { apply list_eq. intros [|j].
    - by rewrite (Hslots 0 _ eq_refl).
    - rewrite (lookup_ge_None_2 args) by (rewrite Hlen; simpl; lia). done. }
  exists args, c. split; [by rewrite Hargs|]. split; [exact Hb|].
  split; [by rewrite Hout, Hargs|].
  destruct Hrej as (Hp & opt' & Ho & Ha & Hprov); [by rewrite Hargs|].
  split; [exact Hp|]. exists opt'. by rewrite Hprov.
Defined.

(** C4, as stated, fails when an earlier occurrence of the option was
    accepted: in [-x ok -x bad] the validator accepts [ok] and rejects
    [bad]; [parse] returns [PARSED_FAILED_VALIDATOR], and the option is
    left marked provided. *)
Lemma validator_rejection_leaves_provided :
  parse picky_bad picky ()
  = Ret (PARSED_FAILED_VALIDATOR, final_state picky_bad picky ())
  ∧ st_out (final_state picky_bad picky ())
    = [Validated 0 [set_mValue (Argument_new "n" "The value.") "ok"] true;
       Validated 0 [set_mValue (Argument_new "n" "The value.") "bad"] false]
  ∧ mProvided <$> option_at (final_state picky_bad picky ()) 0 = Some true.
Proof. repeat split; evaluate. Qed.

Lemma parse_round_trip_witness :
  parse mandatory_twice sample false
  = Ret (PARSED_OK, final_state mandatory_twice sample false)
  ∧ 5 + 2 < length mandatory_twice
  ∧ (o ← lookup_option (st_parser (final_state mandatory_twice sample false))
                       "--mandatory";
     value o "arg1") = Ret "C"
  ∧ (o ← lookup_option (st_parser (final_state mandatory_twice sample false))
                       "--mandatory";
     value o "arg2") = Ret "D".
Proof.
  assert (parse mandatory_twice sample false
          = Ret (PARSED_OK, final_state mandatory_twice sample false)) as Hp
    by (by apply parse_final_state).
  pose proof (reaches_loop_head 2 mandatory_twice (start sample false)) as Hr.
  pose proof (parse_round_trip mandatory_twice sample false _ "--mandatory" 1
                sample_mandatory 5 _
                (set_mProvided (refill mandatory_twice 1 sample_mandatory) true)
                Hp ltac:(evaluate) eq_refl eq_refl ltac:(compute_done)
                Hr ltac:(prove_matches)
                (last_before_end mandatory_twice _ 5 _ 8
                   (loop_head 3 mandatory_twice (1, start sample false)).2 1
                   Hr ltac:(evaluate) ltac:(evaluate) ltac:(evaluate)))
    as Hround.
  split; [exact Hp|]. split; [evaluate|]. split.
  - exact (proj2 (Hround 0 _ eq_refl)).
  - exact (proj2 (Hround 1 _ eq_refl)).
Defined.


Lemma parse_failure_keeps_changes_witness :
  parse mandatory_again_short sample false
  = Ret (PARSED_FAILED, final_state mandatory_again_short sample false)
  ∧ (∃ o', option_at (final_state mandatory_again_short sample false) 0
           = Some o'
           ∧ mProvided o' = true)
  ∧ (∃ optf, option_at (final_state mandatory_again_short sample false) 1
             = Some optf
       ∧ mValue <$> mArgsRef optf = ["C"; "B"])
  ∧ (option_at (final_state mandatory_again_short sample false) 0
     = option_at
         (loop_head 1 mandatory_again_short (1, start sample false)).2 0).
Proof.
  assert (parse mandatory_again_short sample false
          = Ret (PARSED_FAILED,
                 final_state mandatory_again_short sample false))
    as Hp by (by apply parse_final_state).
  assert (reaches mandatory_again_short (start sample false) 2
            (loop_head 1 mandatory_again_short (1, start sample false)).2)
    as Hr1
    by exact (reaches_loop_head 1 mandatory_again_short (start sample false)).
  assert (reaches mandatory_again_short (start sample false) 5
            (loop_head 2 mandatory_again_short (1, start sample false)).2)
    as Hr2
    by exact (reaches_loop_head 2 mandatory_again_short (start sample false)).
  assert (parse_body mandatory_again_short 2
            (loop_head 1 mandatory_again_short (1, start sample false)).2
          = Ret (Next 5
                   (loop_head 2 mandatory_again_short
                      (1, start sample false)).2)) as Hstep by evaluate.
  (* behind the loop head at 5 the scan has no further loop head *)
  assert (∀ i' s', reaches mandatory_again_short (start sample false) i' s' →
            5 < i' → False) as Hend.
  { intros i' s' Hr' Hlt.
    destruct (steps_linear _ _ _ _ Hr2 Hr') as [Hl|Hl].
    - inversion Hl as [|a b c [_ Hs] Hl']; subst; [lia|].
      vm_compute in Hs. discriminate Hs.
    - apply steps_cursor in Hl. simpl in Hl. lia. }
  destruct (parse_failure_keeps_changes mandatory_again_short sample false
              _ _ Hp (or_introl eq_refl)) as (Hprov & Hslots & Hkeep).
  split; [exact Hp|]. split; [|split].
  - apply (Hprov 2 _ 0 (set_mProvided sample_version true) Hr1); evaluate.
  - destruct (Hslots 5 _ 1
                (set_mProvided (refill mandatory_again_short 2 sample_mandatory)
                               true)
                Hr2 ltac:(prove_matches))
      as (optf & Ho & Hlen & _ & Hpin).
    { intros i' s' opt' Hr' Hlt _. by apply (Hend i' s'). }
    exists optf. split; [exact Ho|].
    apply list_eq. intros [|[|j]]; rewrite list_lookup_fmap.
    + destruct (Hpin 0 _ eq_refl) as (af & -> & _ & _ & Hv). simpl.
      rewrite Hv. reflexivity.
    + destruct (Hpin 1 _ eq_refl) as (af & -> & _ & _ & Hv). simpl.
      rewrite Hv. reflexivity.
    + rewrite (lookup_ge_None_2 (mArgsRef optf))
        by (rewrite Hlen; simpl; lia). done.
  - apply (Hkeep 2 _ 0 Hr1). intros i' s' opt' Hr' Hle (Hi' & _ & Hres & _).
    destruct (decide (i' = 2)) as [->|Hne].
    + assert ((2, s').2 = (loop_head 1 mandatory_again_short
                               (1, start sample false)).2) as Hs.
      { rewrite (steps_same_cursor _ _ _ _ Hr' Hr1 eq_refl). done. }
      simpl in Hs. subst s'. vm_compute in Hres. discriminate Hres.
    + pose proof (next_loop_head _ _ 2 _ 5 _ Hr1 ltac:(evaluate) Hstep
                    i' s' Hr' ltac:(lia)) as Hge.
      destruct (decide (i' = 5)) as [->|Hne5].
      * assert ((5, s').2 = (loop_head 2 mandatory_again_short
                               (1, start sample false)).2) as Hs.
        { rewrite (steps_same_cursor _ _ _ _ Hr' Hr2 eq_refl). done. }
        simpl in Hs. subst s'. vm_compute in Hres. discriminate Hres.
      * apply (Hend i' s' Hr'). lia.
Defined.

Lemma addOption_rebinds_witness :
  mOptionRefs (addOption (addOption (Parser_new "p" "1" EmptyString) first_a)
                         second_a)
  = [first_a; second_a]
  ∧ lookup_option
      (addOption (addOption (Parser_new "p" "1" EmptyString) first_a) second_a)
      "-a" = Ret second_a.
Proof.
  destruct (addOption_rebinds
              (addOption (Parser_new "p" "1" EmptyString) first_a) second_a)
    as (Hrefs & Hin & _).
  split; [exact Hrefs|]. apply (Hin "-a"). by left.
Defined.

(** C7, as stated, fails: registering a second option under the alias
    [-a], which the index already has, does not fail.  [addOption] returns
    a registry in which both options are listed and [-a] resolves to the
    second one; the first can no longer be found by its alias. *)
Lemma addOption_duplicate_alias_shadows :
  "-a" ∈ mOpts second_a
  ∧ lookup_option (addOption (Parser_new "p" "1" EmptyString) first_a) "-a"
    = Ret first_a
  ∧ mOptionRefs
      (addOption (addOption (Parser_new "p" "1" EmptyString) first_a) second_a)
    = [first_a; second_a]
  ∧ lookup_option
      (addOption (addOption (Parser_new "p" "1" EmptyString) first_a) second_a)
      "-a" = Ret second_a
  ∧ second_a ≠ first_a.
Proof. repeat split; try evaluate. by left. Qed.

(** * Further properties *)

(** ** Reading slots and options *)

Section Reading.

Context {Env : Type}.

Implicit Types (p : Parser Env) (o option : Option Env).
Implicit Types (args pre post : list Argument) (m : gmap string nat).

Lemma index_args_absent m i args id :
  m !! id = None → id ∉ mId <$> args → index_args m i args !! id = None.
Proof.
  revert m i. induction args as [|a rest IH]; intros m i Hm Hid; [done|].
  rewrite fmap_cons in Hid. apply not_elem_of_cons in Hid as [Hne Hid].
  simpl. apply IH; [|done].
  destruct (m !! mId a); [done|]. by rewrite lookup_insert_ne.
Qed.

Lemma index_args_first m i pre a post :
  m !! mId a = None → mId a ∉ mId <$> pre →
  index_args m i (pre ++ a :: post) !! mId a = Some (i + length pre).
Proof.
  revert m i. induction pre as [|x pre IH]; intros m i Hm Hid; simpl.
  - rewrite Hm. rewrite (index_args_keep _ _ _ _ i); [f_equal; lia|].
    by rewrite lookup_insert_eq.
  - rewrite fmap_cons in Hid. apply not_elem_of_cons in Hid as [Hne Hid].
    rewrite IH; [f_equal; lia| |done].
    destruct (m !! mId x); [done|]. by rewrite lookup_insert_ne.
Qed.

Lemma first_with_id args id :
  id ∈ mId <$> args →
  ∃ pre a post, args = pre ++ a :: post ∧ mId a = id ∧ id ∉ mId <$> pre.
Proof.
  induction args as [|x rest IH]; [by intros ?%elem_of_nil|].
  rewrite fmap_cons. intros Hin.
  destruct (decide (mId x = id)) as [Hx|Hx].
  - exists [], x, rest. repeat split; [done|]. by intros ?%elem_of_nil.
  - apply elem_of_cons in Hin as [Heq|Hin]; [congruence|].
    destruct (IH Hin) as (pre & a & post & -> & Ha & Hpre).
    exists (x :: pre), a, post. repeat split; [done|].
    rewrite fmap_cons. intros [?|?]%elem_of_cons; [congruence|done].
Qed.

(** X1.  For an option whose index is the one the constructor builds,
    [value] throws [ParsingException("Invalid Argument")] for an id that
    no slot has, and for an id some slot has it returns the value of the
    first slot with that id: a later slot with the same id cannot be read
    by id.  It is never undefined. *)
Theorem value_reads_first_slot o :
  mArgsMap o = index_args ∅ 0 (mArgsRef o) →
  (∀ id, id ∉ mId <$> mArgsRef o →
     value o id = Throw {| what := "Invalid Argument" |})
  ∧ (∀ pre a post, mArgsRef o = pre ++ a :: post → mId a ∉ mId <$> pre →
       value o (mId a) = Ret (mValue a))
  ∧ (∀ id, id ∈ mId <$> mArgsRef o →
       ∃ a, a ∈ mArgsRef o ∧ mId a = id ∧ value o id = Ret (mValue a)).
Proof.
  intros Hmap.
  assert (∀ pre a post, mArgsRef o = pre ++ a :: post →
            mId a ∉ mId <$> pre → value o (mId a) = Ret (mValue a)) as Hfirst.
  { intros pre a post Hargs Hid. unfold value. rewrite Hmap, Hargs.
    rewrite index_args_first by done. simpl.
    by rewrite list_lookup_middle. }
  split; [|split; [exact Hfirst|]].
  - intros id Hid. unfold value. by rewrite Hmap, index_args_absent.
  - intros id Hin.
    destruct (first_with_id _ _ Hin) as (pre & a & post & Hargs & Ha & Hpre).
    exists a. split; [|split; [done|]].
    + rewrite Hargs. apply elem_of_app. right. by left.
    + rewrite <- Ha. apply (Hfirst pre a post Hargs). by rewrite Ha.
Qed.

Lemma addOptions_app p (l1 l2 : list (Option Env)) :
  addOptions p (l1 ++ l2) = addOptions (addOptions p l1) l2.
Proof. revert p. induction l1 as [|o l1 IH]; intros p; simpl; [done|apply IH]. Qed.

Lemma addOptions_refs p (options : list (Option Env)) :
  mOptionRefs (addOptions p options) = mOptionRefs p ++ options.
Proof.
  revert p. induction options as [|o rest IH]; intros p; simpl.
  - by rewrite app_nil_r.
  - rewrite IH. simpl. by rewrite <- app_assoc.
Qed.

Lemma addOptions_other p (options : list (Option Env)) alias :
  (∀ o, o ∈ options → alias ∉ mOpts o) →
  mOptionsMap (addOptions p options) !! alias = mOptionsMap p !! alias.
Proof.
  revert p. induction options as [|o rest IH]; intros p Hno; simpl; [done|].
  rewrite IH by (intros o' ?; apply Hno; by right).
  simpl. rewrite bind_aliases_lookup, decide_False; [done|].
  apply Hno. by left.
Qed.

(** X2.  [addOptions] registers the options in the order given, behind
    those already registered.  Afterwards an alias resolves to the last of
    the new options that has it; an alias none of them has resolves as
    before, so on a registry that started empty [operator()] throws
    [ParsingException("Option Not Found!")] for it. *)
Theorem addOptions_last_wins p (options : list (Option Env)) (alias : string) :
  mOptionRefs (addOptions p options) = mOptionRefs p ++ options
  ∧ (∀ (before : list (Option Env)) o (behind : list (Option Env)),
       options = before ++ o :: behind → alias ∈ mOpts o →
       (∀ o', o' ∈ behind → alias ∉ mOpts o') →
       lookup_option (addOptions p options) alias = Ret o)
  ∧ ((∀ o, o ∈ options → alias ∉ mOpts o) →
       mOptionsMap (addOptions p options) !! alias = mOptionsMap p !! alias
       ∧ (mOptionsMap p = ∅ →
          lookup_option (addOptions p options) alias
          = Throw {| what := "Option Not Found!" |})).
Proof.
  split; [apply addOptions_refs|]. split.
  - intros before o behind -> Hin Hbehind. unfold lookup_option.
    rewrite addOptions_app. simpl.
    rewrite addOptions_other by done. simpl.
    rewrite bind_aliases_lookup, decide_True by done.
    rewrite addOptions_refs. simpl. rewrite addOptions_refs.
    change (mOptionRefs (addOption (addOptions p before) o))
      with (mOptionRefs (addOptions p before) ++ [o]).
    rewrite addOptions_refs, <- app_assoc. simpl.
    by rewrite list_lookup_middle.
  - intros Hno. split; [by apply addOptions_other|].
    intros Hempty. unfold lookup_option.
    by rewrite addOptions_other, Hempty, lookup_empty.
Qed.

End Reading.

(** ** What [parse] writes and keeps *)

Section Effects.

Context {Env : Type}.

Implicit Types (argv : list string) (p : Parser Env) (s : State Env).
Implicit Types (opt o : Option Env) (c : Control Env) (i j ref fuel : nat).

Lemma step_output argv (a b : nat * State Env) :
  step argv a b →
  ∃ evs, st_out b.2 = st_out a.2 ++ evs ∧ Forall accepted evs.
Proof.
  intros [Hi Hb].
  apply parse_body_Next in Hb as (ref & opt & _ & Hk & _ & Hp); [|done].
  rewrite parse_option_enough in Hp by done. simpl in Hp.
  destruct (mValidator opt) as [v|].
  - destruct (v _ _).1 eqn:Hok; [|done]. injection Hp as _ <-. simpl.
    eexists. split; [done|]. repeat constructor. by eexists _, _.
  - injection Hp as _ <-. simpl. exists []. by rewrite app_nil_r.
Qed.

Lemma steps_output argv (a b : nat * State Env) :
  rtc (step argv) a b →
  ∃ evs, st_out b.2 = st_out a.2 ++ evs ∧ Forall accepted evs.
Proof.
  induction 1 as [a|a a' b Hs _ (evs' & Ho' & Ha')].
  - exists []. by rewrite app_nil_r.
  - destruct (step_output _ _ _ Hs) as (evs & Ho & Ha).
    exists (evs ++ evs'). rewrite Ho', Ho, app_assoc. split; [done|].
    by apply Forall_app.
Qed.

Lemma parse_body_Return_output argv i s r sf :
  i < length argv → parse_body argv i s = Ret (Return r sf) →
  ∃ e, closes r e ∧ st_out sf = st_out s ++ [e].
Proof.
  intros Hi. unfold parse_body. destruct (is_help (argv !!! i)).
  { destruct (composeHelpString (st_parser s)) as [help| | |]; simpl;
      try done.
    intros [= <- <-]. eexists. split; [|done]. by eexists. }
  destruct (mOptionsMap (st_parser s) !! (argv !!! i)) as [ref|].
  2:{ intros [= <- <-]. eexists. split; [|done]. by eexists. }
  destruct (mOptionRefs (st_parser s) !! ref) as [opt|]; [|done].
  intros [= Hp].
  destruct (decide (i + length (mArgsRef opt) < length argv)) as [Hk|Hk].
  - rewrite parse_option_enough in Hp by done. simpl in Hp.
    destruct (mValidator opt) as [v|]; [|done].
    destruct (v _ _).1 eqn:Hok; [done|]. injection Hp as <- <-. simpl.
    eexists. split; [|done]. by eexists _, _.
  - destruct (parse_option_short argv i s (argv !!! i) ref opt)
      as (slot & _ & Hs); [lia..|].
    rewrite Hs in Hp. injection Hp as <- <-. simpl.
    eexists. split; [|done]. by eexists.
Qed.

Lemma parse_finish_output s r sf :
  parse_finish s = Ret (r, sf) →
  (r = PARSED_OK ∧ sf = s) ∨ (∃ e, closes r e ∧ st_out sf = st_out s ++ [e]).
Proof.
  unfold parse_finish. destruct (first_unmet _) as [o|].
  - destruct (mOpts o) as [|front others]; [done|]. intros [= <- <-].
    right. eexists. split; [|done]. by eexists.
  - intros [= <- <-]. by left.
Qed.

(** X3.  What [parse] has written when it returns consists of the
    records of validator calls that accepted, followed, unless the result
    is [PARSED_OK], by exactly one closing entry: the help text on
    [std::cout] for [PARSED_HELP], one diagnostic on [std::cerr] for
    [PARSED_FAILED], the rejecting validator call for
    [PARSED_FAILED_VALIDATOR].  A successful parse writes nothing. *)
Theorem parse_output_shape argv p env r sf :
  parse argv p env = Ret (r, sf) →
  ∃ calls, Forall accepted calls
    ∧ match r with
      | PARSED_OK => st_out sf = calls
      | _ => ∃ e, closes r e ∧ st_out sf = calls ++ [e]
      end.
Proof.
  intros Hp. destruct (parse_end _ _ _ _ _ Hp) as (i & s & Hr & Hend).
  destruct (steps_output _ _ _ Hr) as (calls & Ho & Ha). simpl in Ho.
  exists calls. split; [done|].
  assert ((r = PARSED_OK ∧ sf = s)
          ∨ ∃ e, closes r e ∧ st_out sf = st_out s ++ [e]) as [[-> ->]|He].
  { destruct Hend as [[_ Hf]|[Hi Hb]].
    - by apply parse_finish_output.
    - right. by eapply parse_body_Return_output. }
  - done.
  - destruct He as (e & Hc & Hout). rewrite Ho in Hout.
    destruct r; [done|by exists e..].
Qed.

Lemma first_unmet_None_provided (opts : list (Option Env)) o :
  first_unmet opts = None → o ∈ opts →
  mMandatory o = true → mProvided o = true.
Proof.
  induction opts as [|o' opts IH]; simpl.
  { intros _ Hin. by apply elem_of_nil in Hin. }
  destruct (checkMandatory o') eqn:Hc; [|done].
  intros Hf [->|Hin]%elem_of_cons Hm; [|by apply IH].
  unfold checkMandatory in Hc. rewrite Hm in Hc. by destruct (mProvided o').
Qed.

(** X4.  After [parse] has returned [PARSED_OK], every mandatory option
    of the registry is marked provided, and since nothing resets the
    marks, a further call of [parse] on that registry without tokens
    returns [PARSED_OK] again, calling no validator and writing
    nothing. *)
Theorem parse_ok_stays_ok argv p env sf :
  parse argv p env = Ret (PARSED_OK, sf) →
  (∀ o, o ∈ mOptionRefs (st_parser sf) →
        mMandatory o = true → mProvided o = true)
  ∧ ∀ argv' env', length argv' ≤ 1 →
      parse argv' (st_parser sf) env'
      = Ret (PARSED_OK, start (st_parser sf) env').
Proof.
  intros Hp. destruct (parse_end _ _ _ _ _ Hp) as (i & s & Hr & Hend).
  assert (first_unmet (mOptionRefs (st_parser sf)) = None) as Hnone.
  { destruct Hend as [[_ Hf]|[Hi Hb]].
    - unfold parse_finish in Hf.
      destruct (first_unmet (mOptionRefs (st_parser s))) as [o|] eqn:Hu.
      + by destruct (mOpts o).
      + by injection Hf as <-.
    - apply parse_body_Return_output in Hb as (e & [] & _); done. }
  split.
  - intros o Ho. by eapply first_unmet_None_provided.
  - intros argv' env' Hlen. unfold parse.
    destruct argv' as [|x [|y rest]]; simpl in *; try lia;
      unfold parse_finish; simpl; by rewrite Hnone.
Qed.

(** X5.  [parse] changes nothing of a registry but slot values and
    provided flags, and never clears a flag: the alias index, the number
    and order of the options, their aliases, descriptions, mandatory
    marks, validators, slot ids and slot descriptions are, when [parse]
    returns, what they were when it was called. *)
Theorem parse_keeps_declarations argv p env r sf :
  parse argv p env = Ret (r, sf) → registry_evolves p (st_parser sf).
Proof.
  intros Hp.
  apply (parse_evolves argv p env 1 (start p env) r sf); [apply rtc_refl|done].
Qed.

(** X6.  When the scan comes to a token that is no help spelling and no
    registered alias, [parse] returns [PARSED_FAILED] with the registry
    and the validators' state as they were on arrival, its only further
    output being the diagnostic that quotes the token; no later token is
    read. *)
Theorem parse_unknown_token argv p env i s :
  reaches argv (start p env) i s → i < length argv →
  is_help (argv !!! i) = false →
  mOptionsMap (st_parser s) !! (argv !!! i) = None →
  ∀ argv', take (S i) argv' = take (S i) argv →
    parse argv' p env
    = Ret (PARSED_FAILED, emit s [Cerr (invalid_argument (argv !!! i))]).
Proof.
  intros Hr Hi Hh Hm argv' Ht.
  assert (i < length argv') as Hi'.
  { apply (f_equal length) in Ht. rewrite !length_take in Ht. lia. }
  assert (∀ j, j < S i → argv !!! j = argv' !!! j) as Heq.
  { intros j Hj. rewrite !list_lookup_total_alt.
    rewrite <- (lookup_take_lt argv (S i)), <- (lookup_take_lt argv' (S i))
      by done. by rewrite Ht. }
  assert (reaches argv' (start p env) i s) as Hr'.
  { apply (steps_prefix argv argv' _ _ Hr); simpl; [lia|].
    intros j ?. apply Heq. lia. }
  rewrite (parse_reaches _ _ _ _ _ Hr').
  rewrite parse_loop_unfold by (by eapply reaches_cursor).
  apply Nat.ltb_lt in Hi' as ->. unfold parse_body.
  rewrite <- (Heq i) by lia. by rewrite Hh, Hm.
Qed.

(** No option in the state has a validator. *)
Lemma quiet_evolves s s' :
  registry_evolves (st_parser s) (st_parser s') →
  (∀ ref opt, option_at s ref = Some opt → mValidator opt = None) →
  ∀ ref opt, option_at s' ref = Some opt → mValidator opt = None.
Proof.
  intros (_ & _ & _ & _ & Hlen & He) Hq ref opt Ho. unfold option_at in *.
  destruct (mOptionRefs (st_parser s) !! ref) as [o|] eqn:Hpo.
  - destruct (He ref o Hpo) as (o' & Ho' & _ & _ & _ & _ & Hval & _).
    assert (o' = opt) as -> by congruence. rewrite Hval. by eapply Hq.
  - apply lookup_ge_None in Hpo. apply lookup_lt_Some in Ho. lia.
Qed.

Lemma steps_quiet argv (a b : nat * State Env) :
  rtc (step argv) a b →
  (∀ ref opt, option_at a.2 ref = Some opt → mValidator opt = None) →
  st_env b.2 = st_env a.2 ∧ st_out b.2 = st_out a.2
  ∧ ∀ ref opt, option_at b.2 ref = Some opt → mValidator opt = None.
Proof.
  induction 1 as [a|a a' b Hs _ IH]; intros Hq; [done|].
  pose proof Hs as [Hi Hb].
  pose proof (parse_body_evolves _ _ _ _ Hi Hb) as He. simpl in He.
  destruct IH as (Henv & Hout & Hq'); [by eapply quiet_evolves|].
  rewrite Henv, Hout. split; [|split; [|done]];
    apply parse_body_Next in Hb as (ref & opt & (_ & _ & _ & Ho) & Hk & _ & Hp);
    try done; rewrite parse_option_enough in Hp by done; simpl in Hp;
    rewrite (Hq ref opt Ho) in Hp; by injection Hp as _ <-.
Qed.

Lemma parse_body_Return_quiet argv i s r sf :
  i < length argv → parse_body argv i s = Ret (Return r sf) →
  (∀ ref opt, option_at s ref = Some opt → mValidator opt = None) →
  st_env sf = st_env s
  ∧ ∃ e, st_out sf = st_out s ++ [e]
      ∧ ∀ ref args verdict, e ≠ Validated ref args verdict.
Proof.
  intros Hi Hb Hq. unfold parse_body in Hb. destruct (is_help (argv !!! i)).
  { destruct (composeHelpString (st_parser s)) as [help| | |]; simpl in Hb;
      try done.
    injection Hb as <- <-. split; [done|]. by eexists. }
  destruct (mOptionsMap (st_parser s) !! (argv !!! i)) as [ref|].
  2:{ injection Hb as <- <-. split; [done|]. by eexists. }
  destruct (mOptionRefs (st_parser s) !! ref) as [opt|] eqn:Ho; [|done].
  injection Hb as Hp.
  destruct (decide (i + length (mArgsRef opt) < length argv)) as [Hk|Hk].
  - rewrite parse_option_enough in Hp by done. simpl in Hp.
    by rewrite (Hq ref opt Ho) in Hp.
  - destruct (parse_option_short argv i s (argv !!! i) ref opt)
      as (slot & _ & Hs); [lia..|].
    rewrite Hs in Hp. injection Hp as <- <-. split; [done|]. by eexists.
Qed.

(** X7.  If no option of the registry has a validator, [parse] leaves
    the state the caller's callbacks would work on untouched and records
    no validator call: its whole output is the closing entry, if any. *)
Theorem parse_without_validators argv p env r sf :
  (∀ o, o ∈ mOptionRefs p → mValidator o = None) →
  parse argv p env = Ret (r, sf) →
  st_env sf = env
  ∧ ∀ ref args verdict, Validated ref args verdict ∉ st_out sf.
Proof.
  intros Hnone Hp.
  destruct (parse_end _ _ _ _ _ Hp) as (i & s & Hr & Hend).
  destruct (steps_quiet _ _ _ Hr) as (Henv & Hout & Hq).
  { intros ref opt Ho. apply Hnone. by eapply list_elem_of_lookup_2. }
  simpl in *. destruct Hend as [[_ Hf]|[Hi Hb]].
  - unfold parse_finish in Hf. destruct (first_unmet _) as [o|].
    + destruct (mOpts o); [done|]. injection Hf as _ <-. simpl.
      split; [done|]. rewrite Hout. simpl. intros ref args verdict Hin.
      apply list_elem_of_singleton in Hin. done.
    + injection Hf as _ <-. split; [done|]. rewrite Hout.
      intros ref args verdict Hin. by apply elem_of_nil in Hin.
  - destruct (parse_body_Return_quiet _ _ _ _ _ Hi Hb Hq)
      as (Henv' & e & Hout' & Hne).
    split; [congruence|]. rewrite Hout', Hout. simpl.
    intros ref args verdict Hin. apply list_elem_of_singleton in Hin.
    by eapply Hne.
Qed.

End Effects.

(** ** The help text and the registry *)

Section HelpText.

Context {Env : Type}.

Implicit Types (argv : list string) (p : Parser Env) (s : State Env).
Implicit Types (opt o : Option Env) (ss : string).

Lemma help_arguments_ext ss (args args' : list Argument) :
  mId <$> args = mId <$> args' → mDesc <$> args = mDesc <$> args' →
  help_arguments ss args = help_arguments ss args'.
Proof.
  revert ss args'. induction args as [|a rest IH]; intros ss [|a' rest'] Hi Hd;
    try done.
  rewrite !fmap_cons in Hi, Hd. injection Hi as Hi Hi'.
  injection Hd as Hd Hd'. simpl. rewrite Hi, Hd.
  destruct (splitWords (mDesc a') _ _); simpl; try done. by apply IH.
Qed.

Lemma optsStr_of_evolves o o' :
  option_evolves o o' → optsStr_of o' = optsStr_of o.
Proof.
  intros (Ho & _ & Hm & _ & _ & Hids & _). unfold optsStr_of.
  rewrite Ho, Hm. apply (f_equal length) in Hids.
  rewrite !length_fmap in Hids. by rewrite Hids.
Qed.

Lemma help_options_evolves ss (opts opts' : list (Option Env)) :
  Forall2 option_evolves opts opts' →
  help_options ss opts' = help_options ss opts.
Proof.
  intros H. revert ss. induction H as [|o o' opts opts' He _ IH]; intros ss;
    [done|].
  simpl. rewrite (optsStr_of_evolves o o' He).
  destruct He as (_ & Hd & _ & _ & _ & Hids & Hdescs & _).
  rewrite Hd. destruct (optsStr_of o); simpl; try done.
  destruct (splitWords (mDescription o) _ _); simpl; try done.
  assert (length (mArgsRef o') = length (mArgsRef o)) as ->.
  { apply (f_equal length) in Hids. by rewrite !length_fmap in Hids. }
  rewrite (help_arguments_ext _ (mArgsRef o') (mArgsRef o)) by done.
  destruct (0 <? length (mArgsRef o)); simpl; [|apply IH].
  destruct (help_arguments _ (mArgsRef o)); simpl; try done; apply IH.
Qed.

Lemma composeHelpString_evolves p p' :
  registry_evolves p p' → composeHelpString p' = composeHelpString p.
Proof.
  intros (Hprog & Hver & Hdesc & _ & Hlen & He). unfold composeHelpString.
  rewrite Hprog, Hver, Hdesc.
  assert (Forall2 option_evolves (mOptionRefs p) (mOptionRefs p')) as Hall.
  { apply Forall2_same_length_lookup. split; [done|].
    intros ref o o' Ho Ho'. destruct (He ref o Ho) as (o'' & Ho'' & Hev).
    congruence. }
  destruct (0 <? String.length (mParserDescription p)); simpl.
  - destruct (splitWords (mParserDescription p) _ _); simpl; try done.
    by apply help_options_evolves.
  - by apply help_options_evolves.
Qed.

(** X8.  Parsing does not change the help text: [composeHelpString]
    gives, on the registry [parse] leaves behind, what it gave on the
    registry [parse] was called on.  The text shows declarations only, no
    captured value and no provided mark. *)
Theorem parse_keeps_help_text argv p env r sf :
  parse argv p env = Ret (r, sf) →
  composeHelpString (st_parser sf) = composeHelpString p.
Proof.
  intros Hp. apply composeHelpString_evolves.
  apply (parse_evolves argv p env 1 (start p env) r sf); [apply rtc_refl|done].
Qed.

Local Ltac wrap_defined :=
  match goal with
  | |- context [splitWords ?value ?width ?pad] =>
      destruct (splitWords_total value width pad) as [? ->];
      [vm_compute; lia|]
  end.

Lemma help_options_undefined ss (opts : list (Option Env)) o :
  o ∈ opts → mOpts o = [] → help_options ss opts = Undefined.
Proof.
  intros Hin Ho. revert ss. induction opts as [|x rest IH]; intros ss.
  { by apply elem_of_nil in Hin. }
  simpl. unfold optsStr_of. destruct (mOpts x) as [|front others] eqn:Hx;
    [done|].
  apply elem_of_cons in Hin as [->|Hin]; [congruence|]. simpl.
  wrap_defined. simpl.
  destruct (0 <? length (mArgsRef x)); simpl; [|by apply IH].
  match goal with
  | |- context [help_arguments ?t ?a] =>
      destruct (help_arguments_total t a) as [out ->]
  end.
  simpl. by apply IH.
Qed.

(** X9.  A registered option without any alias makes the help text
    undefined: [composeHelpString] takes [front()] of its empty alias
    list.  So does every [parse] whose first token is a help spelling. *)
Theorem help_needs_aliases p o :
  o ∈ mOptionRefs p → mOpts o = [] →
  composeHelpString p = Undefined
  ∧ ∀ x rest env, parse (x :: "--help" :: rest) p env = Undefined.
Proof.
  intros Hin Ho.
  assert (composeHelpString p = Undefined) as Hu.
  { unfold composeHelpString.
    destruct (0 <? String.length (mParserDescription p)); simpl.
    - wrap_defined. simpl. by eapply help_options_undefined.
    - by eapply help_options_undefined. }
  split; [done|]. intros x rest env. unfold parse.
  change (length (x :: "--help" :: rest)) with (S (S (length rest))).
  rewrite parse_loop_S. simpl. unfold parse_body. simpl. by rewrite Hu.
Qed.

End HelpText.

(** ** Options the scan comes to, or does not *)

Section Occurrence.

Context {Env : Type}.

Implicit Types (argv : list string) (p : Parser Env) (s : State Env).
Implicit Types (opt o : Option Env).

(** X10.  On a registry built by [addOptions] from a new [Parser], with
    options that have an alias each and validators that return their
    verdict (none throws), [parse] returns one of its four results for
    every token stream: the loop ends within [argc] iterations, no pointer
    of the alias index dangles, and [front()] is never taken of an empty
    list. *)
Theorem parse_returns_on_built_registry argv program version description
    (options : list (Option Env)) env :
  Forall (λ o, mOpts o ≠ []) options →
  ∃ r sf,
    parse argv (addOptions (Parser_new program version description) options)
          env = Ret (r, sf).
Proof.
  intros Hall. apply parse_returns.
  - apply addOptions_pointers_valid, Parser_new_pointers_valid.
  - intros ref o. rewrite addOptions_refs. simpl.
    intros Ho. by apply (Forall_lookup_1 _ _ _ _ Hall Ho).
Qed.

(** X11.  An option to which no token of the stream resolves is returned
    by [parse] exactly as it was: no slot of it is written and its
    provided mark is not set. *)
Theorem parse_leaves_absent_option argv p env r sf ref :
  parse argv p env = Ret (r, sf) →
  (∀ i, 1 ≤ i < length argv → mOptionsMap p !! (argv !!! i) ≠ Some ref) →
  option_at sf ref = mOptionRefs p !! ref.
Proof.
  intros Hp Habsent. apply (parse_never_matched argv p env r sf ref Hp).
  intros i s opt Hr (Hi & _ & Hm & _).
  destruct (reaches_evolves _ _ _ _ Hr) as (_ & _ & _ & Hmap & _).
  simpl in Hmap. rewrite Hmap in Hm. apply (Habsent i); [|done].
  apply reaches_cursor in Hr. lia.
Qed.

(** X13.  An option that is registered under help spellings only can
    not be given on the command line: the help check comes first.  [parse]
    never writes its slots or marks it provided, and if the option is
    mandatory and not provided, no token stream makes [parse] return
    [PARSED_OK]. *)
Theorem reserved_alias_unreachable argv p env r sf ref o :
  (∀ alias, mOptionsMap p !! alias = Some ref → is_help alias = true) →
  mOptionRefs p !! ref = Some o →
  parse argv p env = Ret (r, sf) →
  option_at sf ref = Some o
  ∧ (mMandatory o = true → mProvided o = false → r ≠ PARSED_OK).
Proof.
  intros Hres Ho Hp.
  assert (option_at sf ref = Some o) as Hsf.
  { rewrite <- Ho. apply (parse_never_matched argv p env r sf ref Hp).
    intros i s opt Hr (Hi & Hh & Hm & _).
    destruct (reaches_evolves _ _ _ _ Hr) as (_ & _ & _ & Hmap & _).
    simpl in Hmap. rewrite Hmap in Hm. apply Hres in Hm. congruence. }
  split; [done|]. intros Hm Hpr ->.
  destruct (parse_end _ _ _ _ _ Hp) as (i & s & Hr & Hend).
  assert (first_unmet (mOptionRefs (st_parser sf)) = None) as Hnone.
  { destruct Hend as [[_ Hf]|[Hi Hb]].
    - unfold parse_finish in Hf.
      destruct (first_unmet (mOptionRefs (st_parser s))) as [o'|] eqn:Hu.
      + by destruct (mOpts o').
      + by injection Hf as <-.
    - apply parse_body_Return_output in Hb as (e & [] & _); done. }
  assert (mProvided o = true); [|congruence].
  eapply first_unmet_None_provided; [exact Hnone| |done].
  by eapply list_elem_of_lookup_2.
Qed.

(** X14.  When the tokens run out inside the slots of a matched option,
    [parse] returns [PARSED_FAILED] and the slots for which no token was
    left keep the values they had, as does the provided mark. *)
Theorem parse_missing_argument_keeps_rest argv p env i s ref opt :
  reaches argv (start p env) i s → matches argv s i ref opt →
  length argv ≤ i + length (mArgsRef opt) →
  ∃ sf optf,
    parse argv p env = Ret (PARSED_FAILED, sf)
    ∧ option_at sf ref = Some optf
    ∧ mProvided optf = mProvided opt
    ∧ ∀ j a, mArgsRef opt !! j = Some a → length argv ≤ S (i + j) →
        mArgsRef optf !! j = Some a.
Proof.
  intros Hr Hm Hk. pose proof Hm as (Hi & _ & _ & Ho).
  destruct (parse_option_short argv i s (argv !!! i) ref opt)
    as (slot & _ & Hs); [done..|].
  eexists _, (refill argv i opt). split.
  { rewrite (parse_reaches _ _ _ _ _ Hr).
    rewrite parse_loop_unfold by (by eapply reaches_cursor).
    apply Nat.ltb_lt in Hi as ->.
    by rewrite (parse_body_matches _ _ _ _ _ Hm), Hs. }
  split.
  { unfold option_at, store. simpl. apply list_lookup_insert_eq.
    by eapply lookup_lt_Some. }
  split; [done|]. intros j a Ha Hj. simpl.
  rewrite (fill_args_refilled argv i (mArgsRef opt) j), Ha. simpl.
  rewrite bool_decide_eq_false_2; [done|lia].
Qed.

End Occurrence.

(** X12.  At width 0, [splitWords] does not return for any text that is
    not empty: the loop writes an empty line and takes nothing off the
    text, however many iterations it is given. *)
Theorem splitWords_width_zero (value P : string) :
  value ≠ EmptyString →
  ∀ fuel, splitWords_loop fuel 0 P EmptyString value EmptyString = OutOfFuel.
Proof. intros Hv fuel. by apply splitWords_zero_width. Qed.

(** ** Concrete runs of the further properties *)

Lemma value_reads_first_slot_witness :
  mArgsMap twin = index_args ∅ 0 (mArgsRef twin)
  ∧ value twin "y" = Throw {| what := "Invalid Argument" |}
  ∧ value twin "x" = Ret "1".
Proof.
  destruct (value_reads_first_slot twin eq_refl) as (Habsent & Hfirst & _).
  split; [done|]. split.
  - apply Habsent. vm_compute. intros Hin.
    repeat (apply elem_of_cons in Hin as [Hin|Hin]; [discriminate Hin|]).
    by apply elem_of_nil in Hin.
  - apply (Hfirst [] (set_mValue (Argument_new "x" "The first.") "1")
             [set_mValue (Argument_new "x" "The second.") "2"] eq_refl).
    by intros ?%elem_of_nil.
Defined.

Lemma addOptions_last_wins_witness :
  lookup_option
    (addOptions (Parser_new "p" "1" EmptyString) [first_a; second_a]) "-a"
  = Ret second_a
  ∧ lookup_option
      (addOptions (Parser_new "p" "1" EmptyString) [first_a; second_a]) "-b"
    = Throw {| what := "Option Not Found!" |}.
Proof.
  split.
  - destruct (addOptions_last_wins (Parser_new "p" "1" EmptyString)
                [first_a; second_a] "-a") as (_ & Hlast & _).
    apply (Hlast [first_a] second_a [] eq_refl); [by left|].
    by intros o' ?%elem_of_nil.
  - destruct (addOptions_last_wins (Parser_new "p" "1" EmptyString)
                [first_a; second_a] "-b") as (_ & _ & Hnone).
    apply Hnone; [|done]. intros o Hin. vm_compute.
    repeat (apply elem_of_cons in Hin as [->|Hin];
            [intros H; repeat (apply elem_of_cons in H as [H|H];
                               [discriminate H|]);
             by apply elem_of_nil in H|]).
    by apply elem_of_nil in Hin.
Defined.

Lemma parse_output_shape_witness :
  parse picky_bad picky ()
  = Ret (PARSED_FAILED_VALIDATOR, final_state picky_bad picky ())
  ∧ ∃ calls, Forall accepted calls
      ∧ ∃ e, closes PARSED_FAILED_VALIDATOR e
          ∧ st_out (final_state picky_bad picky ()) = calls ++ [e].
Proof.
  assert (parse picky_bad picky ()
          = Ret (PARSED_FAILED_VALIDATOR, final_state picky_bad picky ()))
    as Hp by (by apply parse_final_state).
  split; [exact Hp|]. exact (parse_output_shape _ _ _ _ _ Hp).
Defined.

Lemma parse_ok_stays_ok_witness :
  parse mandatory_once sample false
  = Ret (PARSED_OK, final_state mandatory_once sample false)
  ∧ parse ["prog"] (st_parser (final_state mandatory_once sample false)) true
    = Ret (PARSED_OK,
           start (st_parser (final_state mandatory_once sample false)) true).
Proof.
  assert (parse mandatory_once sample false
          = Ret (PARSED_OK, final_state mandatory_once sample false))
    as Hp by (by apply parse_final_state).
  split; [exact Hp|].
  apply (proj2 (parse_ok_stays_ok _ _ _ _ Hp)). simpl. lia.
Defined.

Lemma parse_keeps_declarations_witness :
  parse mandatory_twice sample false
  = Ret (PARSED_OK, final_state mandatory_twice sample false)
  ∧ registry_evolves sample
      (st_parser (final_state mandatory_twice sample false)).
Proof.
  assert (parse mandatory_twice sample false
          = Ret (PARSED_OK, final_state mandatory_twice sample false))
    as Hp by (by apply parse_final_state).
  split; [exact Hp|]. exact (parse_keeps_declarations _ _ _ _ _ Hp).
Defined.

Lemma parse_unknown_token_witness :
  2 < length unknown_after_version
  ∧ parse unknown_after_version sample false
    = Ret (PARSED_FAILED,
           emit (loop_head 1 unknown_after_version (1, start sample false)).2
                [Cerr (invalid_argument "--bogus")]).
Proof.
  split; [evaluate|].
  apply (parse_unknown_token unknown_after_version sample false 2 _
           (reaches_loop_head 1 unknown_after_version (start sample false))
           ltac:(evaluate) ltac:(evaluate) ltac:(evaluate)).
  done.
Defined.

Lemma parse_without_validators_witness :
  parse ["prog"; "-q"] plain true
  = Ret (PARSED_OK, final_state ["prog"; "-q"] plain true)
  ∧ st_env (final_state ["prog"; "-q"] plain true) = true
  ∧ ∀ ref args verdict,
      Validated ref args verdict ∉ st_out (final_state ["prog"; "-q"] plain true).
Proof.
  assert (parse ["prog"; "-q"] plain true
          = Ret (PARSED_OK, final_state ["prog"; "-q"] plain true))
    as Hp by (by apply parse_final_state).
  split; [exact Hp|].
  apply (parse_without_validators ["prog"; "-q"] plain true PARSED_OK _);
    [|exact Hp].
  intros o Hin. vm_compute in Hin.
  apply elem_of_cons in Hin as [->|Hin]; [done|]. by apply elem_of_nil in Hin.
Defined.

Lemma parse_keeps_help_text_witness :
  parse mandatory_twice sample false
  = Ret (PARSED_OK, final_state mandatory_twice sample false)
  ∧ composeHelpString (st_parser (final_state mandatory_twice sample false))
    = composeHelpString sample.
Proof.
  assert (parse mandatory_twice sample false
          = Ret (PARSED_OK, final_state mandatory_twice sample false))
    as Hp by (by apply parse_final_state).
  split; [exact Hp|]. exact (parse_keeps_help_text _ _ _ _ _ Hp).
Defined.

Lemma help_needs_aliases_witness :
  composeHelpString nameless = Undefined
  ∧ parse ["prog"; "--help"] nameless () = Undefined.
Proof.
  destruct (help_needs_aliases nameless (Option_new [] "No alias." false [] None))
    as [Hhelp Hparse]; [by left|done|].
  split; [exact Hhelp|]. apply Hparse.
Defined.

Lemma parse_returns_on_built_registry_witness :
  Forall (λ o : Option bool, mOpts o ≠ []) [sample_version; sample_mandatory]
  ∧ ∃ r sf, parse mandatory_short sample false = Ret (r, sf).
Proof.
  assert (Forall (λ o : Option bool, mOpts o ≠ [])
            [sample_version; sample_mandatory]) as Hall
    by (by repeat constructor).
  split; [exact Hall|].
  exact (parse_returns_on_built_registry mandatory_short _ _ _ _ false Hall).
Defined.

Lemma parse_leaves_absent_option_witness :
  parse mandatory_once sample false
  = Ret (PARSED_OK, final_state mandatory_once sample false)
  ∧ option_at (final_state mandatory_once sample false) 0
    = Some sample_version.
Proof.
  assert (parse mandatory_once sample false
          = Ret (PARSED_OK, final_state mandatory_once sample false))
    as Hp by (by apply parse_final_state).
  split; [exact Hp|].
  apply (parse_leaves_absent_option _ _ _ _ _ 0 Hp).
  intros i Hi. simpl in Hi.
  destruct i as [|[|[|[|i]]]]; try lia; by vm_compute.
Defined.

Lemma splitWords_width_zero_witness :
  "abc" ≠ EmptyString
  ∧ splitWords_loop 1000 0 ">" EmptyString "abc" EmptyString = OutOfFuel.
Proof. split; [done|]. by apply splitWords_width_zero. Defined.

Lemma reserved_alias_unreachable_witness :
  mOptionsMap reserved !! "-h" = Some 0
  ∧ option_at (final_state ["prog"; "-h"; "example.org"] reserved ()) 0
    = Some reserved_only
  ∧ ∀ r sf, parse ["prog"; "-h"; "example.org"] reserved () = Ret (r, sf) →
      r ≠ PARSED_OK.
Proof.
  assert (∀ alias, mOptionsMap reserved !! alias = Some 0 →
            is_help alias = true) as Hres.
  { intros alias.
    change (mOptionsMap reserved)
      with (bind_aliases (∅ : gmap string nat) ["-h"] 0).
    rewrite bind_aliases_lookup.
    case_decide as Hin; [|by rewrite lookup_empty].
    apply list_elem_of_singleton in Hin as ->. done. }
  split; [evaluate|]. split.
  - apply (reserved_alias_unreachable ["prog"; "-h"; "example.org"] reserved ()
             PARSED_HELP _ 0 reserved_only Hres eq_refl).
    by apply parse_final_state.
  - intros r sf Hp.
    by apply (reserved_alias_unreachable _ _ _ _ _ 0 reserved_only Hres eq_refl
                Hp).
Defined.

Lemma parse_missing_argument_keeps_rest_witness :
  matches mandatory_short (loop_head 1 mandatory_short (1, start sample false)).2
          2 1 sample_mandatory
  ∧ ∃ sf optf,
      parse mandatory_short sample false = Ret (PARSED_FAILED, sf)
      ∧ option_at sf 1 = Some optf
      ∧ mProvided optf = false
      ∧ mArgsRef optf !! 1 = Some (Argument_new "arg2" "The argument 2.").
Proof.
  assert (matches mandatory_short
            (loop_head 1 mandatory_short (1, start sample false)).2
            2 1 sample_mandatory) as Hm by prove_matches.
  split; [exact Hm|].
  destruct (parse_missing_argument_keeps_rest mandatory_short sample false 2 _
              1 sample_mandatory
              (reaches_loop_head 1 mandatory_short (start sample false)) Hm
              ltac:(evaluate))
    as (sf & optf & Hp & Ho & Hprov & Hrest).
  exists sf, optf. split; [exact Hp|]. split; [exact Ho|].
  split; [exact Hprov|]. apply (Hrest 1 _ eq_refl). evaluate.
Defined.
